(** * SHA-1 incremental hasher of lifegpc-sha1 (src/sha1.ts)

    A shallow embedding of the TypeScript module: the JavaScript number
    operators the code relies on, the typed arrays it keeps its state in,
    the compression loop [hashBlocks], the class [SHA1] with its methods in
    state-passing style, and the convenience functions [hash], [sha1],
    [hashWithHmac] and [HmacSHA1]. *)

From Stdlib Require Import ZArith Lia Bool String Ascii.
From Stdlib Require Import Strings.Byte.
From stdpp Require Import base list.

Local Open Scope Z_scope.
(** ** JavaScript numbers

    Every number the module handles is an integer far below 2^53, so a
    JavaScript number is an integer [Z].  The bit operators first convert
    their operands to 32 bits. *)
Module JS.

Definition ToInt32 (x : Z) : Z := (x + 2 ^ 31) mod 2 ^ 32 - 2 ^ 31.
Definition ToUint32 (x : Z) : Z := x mod 2 ^ 32.
Definition ToUint8 (x : Z) : Z := x mod 2 ^ 8.

(** [x << c] *)
Definition shl (x c : Z) : Z := ToInt32 (Z.shiftl (ToInt32 x) (ToUint32 c mod 32)).
(** [x >> c] *)
Definition sar (x c : Z) : Z := Z.shiftr (ToInt32 x) (ToUint32 c mod 32).
(** [x >>> c] *)
Definition shr (x c : Z) : Z := Z.shiftr (ToUint32 x) (ToUint32 c mod 32).
(** [x | y], [x & y], [x ^ y], [~x] *)
Definition bor (x y : Z) : Z := Z.lor (ToInt32 x) (ToInt32 y).
Definition band (x y : Z) : Z := Z.land (ToInt32 x) (ToInt32 y).
Definition bxor (x y : Z) : Z := Z.lxor (ToInt32 x) (ToInt32 y).
Definition bnot (x : Z) : Z := Z.lnot (ToInt32 x).
(** [x % y] takes the sign of the dividend. *)
Definition rem (x y : Z) : Z := Z.rem x y.
(** [(x / y) | 0]: the quotient truncated towards zero, as 32 bits. *)
Definition div_or0 (x y : Z) : Z := ToInt32 (Z.quot x y).

(** [for (let i = lo; i < hi; i++) s = body i s], for a body that leaves
    [i] alone: it runs for i = lo, lo+1, ..., hi-1. *)
Fixpoint for_range {S : Type} (n : nat) (i : Z) (body : Z -> S -> S) (s : S) : S :=
  match n with
  | O => s
  | Datatypes.S n' => for_range n' (i + 1) body (body i s)
  end.

Definition for_loop {S : Type} (lo hi : Z) (body : Z -> S -> S) (s : S) : S :=
  for_range (Z.to_nat (hi - lo)) lo body s.

End JS.
Import JS.

(** ** Typed arrays

    A typed array has a fixed length.  A read outside it gives [undefined],
    which every use in this module turns into 0 (an operand of a bit
    operator, or a value stored into another typed array); a write outside
    it is dropped. *)
Module Int32Array.

Abbreviation t := (list Z) (only parsing).

Definition make (n : nat) : t := replicate n 0.

Definition get (a : t) (i : Z) : Z :=
  if i <? 0 then 0 else default 0 (a !! Z.to_nat i).

Definition set (a : t) (i : Z) (x : Z) : t :=
  if i <? 0 then a else <[Z.to_nat i := ToInt32 x]> a.

End Int32Array.

Definition byte_of_Z (x : Z) : byte :=
  default x00 (Byte.of_N (Z.to_N (ToUint8 x))).

Definition Z_of_byte (b : byte) : Z := Z.of_N (Byte.to_N b).

Module Uint8Array.

Abbreviation t := (list byte) (only parsing).

Definition make (n : nat) : t := replicate n x00.

Definition get (a : t) (i : Z) : Z :=
  if i <? 0 then 0 else default 0 (Z_of_byte <$> a !! Z.to_nat i).

Definition set (a : t) (i : Z) (x : Z) : t :=
  if i <? 0 then a else <[Z.to_nat i := byte_of_Z x]> a.

Definition length (a : t) : Z := Z.of_nat (List.length a).

End Uint8Array.

(** [TypedArray.prototype.set(source)]: copies [source] over the start of
    the target, and throws a RangeError when it does not fit. *)
Definition typed_set {A : Type} (target source : list A) : option (list A) :=
  if (List.length source <=? List.length target)%nat
  then Some (source ++ drop (List.length source) target)
  else None.

(** ** Helpers of @stablelib/binary and @stablelib/wipe *)

(** Modelled from the spec: [readUint32BE] of @stablelib/binary, the load of
    one big-endian 32-bit word at [offset]; the result is unsigned. *)
Definition readUint32BE (array : Uint8Array.t) (offset : Z) : Z :=
  shr (bor (bor (bor (shl (Uint8Array.get array offset) 24)
                     (shl (Uint8Array.get array (offset + 1)) 16))
                (shl (Uint8Array.get array (offset + 2)) 8))
           (Uint8Array.get array (offset + 3))) 0.

(** Modelled from the spec: [writeUint32BE] of @stablelib/binary, the store
    of one 32-bit word as 4 big-endian bytes at [offset]. *)
Definition writeUint32BE (value : Z) (out : Uint8Array.t) (offset : Z) : Uint8Array.t :=
  let out := Uint8Array.set out (offset + 0) (shr value 24) in
  let out := Uint8Array.set out (offset + 1) (shr value 16) in
  let out := Uint8Array.set out (offset + 2) (shr value 8) in
  let out := Uint8Array.set out (offset + 3) (shr value 0) in
  out.

(** Modelled from the spec: [wipe] of @stablelib/wipe, which zeroes every
    element of the array. *)
Definition wipe {A : Type} (zero : A) (array : list A) : list A :=
  replicate (List.length array) zero.

(** ** The compression engine *)

Definition DIGEST_LENGTH : Z := 20.
Definition BLOCK_SIZE : Z := 64.

Definition leftrotate (x c : Z) : Z := bor (shl x c) (shr x (32 - c)).

Definition safeAdd (x y : Z) : Z :=
  let lsw := band x 0xffff + band y 0xffff in
  let msw := sar x 16 + sar y 16 + sar lsw 16 in
  bor (shl msw 16) (band lsw 0xffff).

(** The five working variables a, b, c, d, e. *)
Record vars := Vars { va : Z; vb : Z; vc : Z; vd : Z; ve : Z }.

(** The choice of [f] and [k] in round [i]. *)
Definition round_fk (i b c d : Z) : Z * Z :=
  if (0 <=? i) && (i <=? 19) then (bor (band b c) (band (bnot b) d), 0x5a827999)
  else if (20 <=? i) && (i <=? 39) then (bxor (bxor b c) d, 0x6ed9eba1)
  else if (40 <=? i) && (i <=? 59) then (bor (bor (band b c) (band b d)) (band c d), 0x8f1bbcdc)
  else (bxor (bxor b c) d, 0xca62c1d6).

(** [temp] of one round. *)
Definition round_temp (a f e k wi : Z) : Z :=
  safeAdd (leftrotate a 5) (safeAdd f (safeAdd e (safeAdd k wi))).

(** The body of the loop over the 80 rounds. *)
Definition round (w : Int32Array.t) (i : Z) (s : vars) : vars :=
  let '(f, k) := round_fk i (vb s) (vc s) (vd s) in
  let temp := round_temp (va s) f (ve s) k (Int32Array.get w i) in
  {| va := temp; vb := va s; vc := leftrotate (vb s) 30; vd := vc s; ve := vd s |}.

(** The message schedule: the two loops that fill [w]. *)
Definition load_words (p : Uint8Array.t) (pos : Z) (w : Int32Array.t) : Int32Array.t :=
  for_loop 0 16 (fun i w =>
    let j := pos + i * 4 in
    Int32Array.set w i (readUint32BE p j)) w.

Definition expand_words (w : Int32Array.t) : Int32Array.t :=
  for_loop 16 80 (fun i w =>
    Int32Array.set w i
      (leftrotate (bxor (bxor (bxor (Int32Array.get w (i - 3)) (Int32Array.get w (i - 8)))
                              (Int32Array.get w (i - 14)))
                        (Int32Array.get w (i - 16))) 1)) w.

(** The final accumulation [v[n] = safeAdd(v[n], x)]. *)
Definition accumulate (v : Int32Array.t) (n : Z) (x : Z) : Int32Array.t :=
  Int32Array.set v n (safeAdd (Int32Array.get v n) x).

(** The 80 rounds, from the working variables loaded from [v]. *)
Definition rounds (w v : Int32Array.t) : vars :=
  let s := {| va := Int32Array.get v 0; vb := Int32Array.get v 1;
              vc := Int32Array.get v 2; vd := Int32Array.get v 3;
              ve := Int32Array.get v 4 |} in
  for_loop 0 80 (round w) s.

(** One pass of the body of [while (len >= 64)], without the two counters. *)
Definition hashBlock (w v : Int32Array.t) (p : Uint8Array.t) (pos : Z)
  : Int32Array.t * Int32Array.t :=
  let w := load_words p pos w in
  let w := expand_words w in
  let s := rounds w v in
  let v := accumulate v 0 (va s) in
  let v := accumulate v 1 (vb s) in
  let v := accumulate v 2 (vc s) in
  let v := accumulate v 3 (vd s) in
  let v := accumulate v 4 (ve s) in
  (w, v).

(** [while (len >= 64) { ...; pos += 64; len -= 64 }], with the arrays [w]
    and [v] it mutates returned next to [pos]. *)
Fixpoint hashBlocks_loop (fuel : nat) (w v : Int32Array.t) (p : Uint8Array.t) (pos len : Z)
  : Int32Array.t * Int32Array.t * Z :=
  match fuel with
  | O => (w, v, pos)
  | S fuel' =>
      if 64 <=? len then
        let '(w', v') := hashBlock w v p pos in
        hashBlocks_loop fuel' w' v' p (pos + 64) (len - 64)
      else (w, v, pos)
  end.

(** The loop body runs [len / 64] times, which is the fuel given. *)
Definition hashBlocks (w v : Int32Array.t) (p : Uint8Array.t) (pos len : Z)
  : Int32Array.t * Int32Array.t * Z :=
  hashBlocks_loop (Z.to_nat (len / 64)) w v p pos len.

(** ** The class SHA1 *)

(** What a call does: it returns a value or throws an error. *)
Inductive result (A : Type) : Type :=
| Ok (a : A)
| Throw (msg : string).
Arguments Ok {A} a.
Arguments Throw {A} msg.

Record SHA1 := mkSHA1 {
  _state : Int32Array.t;
  _temp : Int32Array.t;
  _buffer : Uint8Array.t;
  _bufferLength : Z;
  _bytesHashed : Z;
  _finished : bool
}.

Definition digestLength : Z := DIGEST_LENGTH.
Definition blockSize : Z := BLOCK_SIZE.

Definition with_state (v : Int32Array.t) (this : SHA1) : SHA1 :=
  mkSHA1 v (_temp this) (_buffer this) (_bufferLength this) (_bytesHashed this) (_finished this).
Definition with_temp (w : Int32Array.t) (this : SHA1) : SHA1 :=
  mkSHA1 (_state this) w (_buffer this) (_bufferLength this) (_bytesHashed this) (_finished this).
Definition with_buffer (b : Uint8Array.t) (this : SHA1) : SHA1 :=
  mkSHA1 (_state this) (_temp this) b (_bufferLength this) (_bytesHashed this) (_finished this).
Definition with_bufferLength (n : Z) (this : SHA1) : SHA1 :=
  mkSHA1 (_state this) (_temp this) (_buffer this) n (_bytesHashed this) (_finished this).
Definition with_bytesHashed (n : Z) (this : SHA1) : SHA1 :=
  mkSHA1 (_state this) (_temp this) (_buffer this) (_bufferLength this) n (_finished this).
Definition with_finished (f : bool) (this : SHA1) : SHA1 :=
  mkSHA1 (_state this) (_temp this) (_buffer this) (_bufferLength this) (_bytesHashed this) f.

(** A method is a function of the object it is called on: it gives what
    the call does and the object as the call leaves it. *)
Definition method (A : Type) : Type := SHA1 -> result A * SHA1.

Definition ret {A : Type} (a : A) : method A := fun this => (Ok a, this).

Definition bind {A B : Type} (m : method A) (k : A -> method B) : method B :=
  fun this =>
    match m this with
    | (Ok a, this') => k a this'
    | (Throw msg, this') => (Throw msg, this')
    end.

Notation "'call' x <- m ; k" := (bind m (fun x => k))
  (at level 10, x name, m at level 100, k at level 200).

Definition _initState (this : SHA1) : SHA1 :=
  let v := _state this in
  let v := Int32Array.set v 0 0x67452301 in
  let v := Int32Array.set v 1 0xefcdab89 in
  let v := Int32Array.set v 2 0x98badcfe in
  let v := Int32Array.set v 3 0x10325476 in
  let v := Int32Array.set v 4 0xc3d2e1f0 in
  with_state v this.

Definition reset : method unit := fun this =>
  let this := _initState this in
  let this := with_bufferLength 0 this in
  let this := with_bytesHashed 0 this in
  let this := with_finished false this in
  (Ok tt, this).

(** [new SHA1()]: the field initialisers, then the constructor's reset. *)
Definition new_SHA1 : SHA1 :=
  snd (reset (mkSHA1 (Int32Array.make 5) (Int32Array.make 80) (Uint8Array.make 128) 0 0 false)).

Definition clean : method unit := fun this =>
  let this := with_buffer (wipe x00 (_buffer this)) this in
  let this := with_temp (wipe 0 (_temp this)) this in
  reset this.

(** The local variables of [update] next to the object. *)
Record update_locals := mkLocals {
  l_this : SHA1;
  l_dataPos : Z;
  l_dataLength : Z
}.

(** [this._buffer[this._bufferLength++] = data[dataPos++]; dataLength--] *)
Definition copy_byte (data : Uint8Array.t) (l : update_locals) : update_locals :=
  let this := l_this l in
  let this' :=
    with_bufferLength (_bufferLength this + 1)
      (with_buffer (Uint8Array.set (_buffer this) (_bufferLength this)
                      (Uint8Array.get data (l_dataPos l))) this) in
  mkLocals this' (l_dataPos l + 1) (l_dataLength l - 1).

(** [while (this._bufferLength < this.blockSize && dataLength > 0)] *)
Fixpoint fill_loop (fuel : nat) (data : Uint8Array.t) (l : update_locals) : update_locals :=
  match fuel with
  | O => l
  | S fuel' =>
      if (_bufferLength (l_this l) <? blockSize) && (0 <? l_dataLength l)
      then fill_loop fuel' data (copy_byte data l)
      else l
  end.

(** [while (dataLength > 0)] *)
Fixpoint tail_loop (fuel : nat) (data : Uint8Array.t) (l : update_locals) : update_locals :=
  match fuel with
  | O => l
  | S fuel' =>
      if 0 <? l_dataLength l
      then tail_loop fuel' data (copy_byte data l)
      else l
  end.

(** [if (this._bufferLength > 0) { ... }]: a buffered partial block is
    filled up from [data] and, once full, hashed. *)
Definition fill_buffer (data : Uint8Array.t) (l : update_locals) : update_locals :=
  if 0 <? _bufferLength (l_this l) then
    let l := fill_loop (Z.to_nat (l_dataLength l)) data l in
    if _bufferLength (l_this l) =? blockSize then
      let this := l_this l in
      let '(w, v, _) := hashBlocks (_temp this) (_state this) (_buffer this) 0 blockSize in
      mkLocals (with_bufferLength 0 (with_state v (with_temp w this)))
               (l_dataPos l) (l_dataLength l)
    else l
  else l.

(** [if (dataLength >= this.blockSize) { ... }]: whole blocks are hashed
    straight from [data]. *)
Definition hash_direct (data : Uint8Array.t) (l : update_locals) : update_locals :=
  if blockSize <=? l_dataLength l then
    let this := l_this l in
    let '(w, v, dataPos) :=
      hashBlocks (_temp this) (_state this) data (l_dataPos l) (l_dataLength l) in
    mkLocals (with_state v (with_temp w this)) dataPos (rem (l_dataLength l) blockSize)
  else l.

(** Both copy loops decrement [dataLength] in every pass, so [dataLength]
    passes are enough fuel. *)
Definition update (data : Uint8Array.t) (dataLength : Z) : method unit := fun this =>
  if _finished this then
    (Throw "SHA1: can't update because hash was finished.", this)
  else
    let l := mkLocals (with_bytesHashed (_bytesHashed this + dataLength) this) 0 dataLength in
    let l := fill_buffer data l in
    let l := hash_direct data l in
    let l := tail_loop (Z.to_nat (l_dataLength l)) data l in
    (Ok tt, l_this l).

(** [update(data)], with the default [dataLength = data.length]. *)
Definition update_all (data : Uint8Array.t) : method unit :=
  update data (Uint8Array.length data).

(** The copy of the state words into [out] that ends [finish]. *)
Definition write_state (v : Int32Array.t) (out : Uint8Array.t) : Uint8Array.t :=
  for_loop 0 (digestLength / 4) (fun i out =>
    writeUint32BE (Int32Array.get v i) out (i * 4)) out.

(** The padding [finish] writes into the buffer. *)
Definition pad_buffer (buffer : Uint8Array.t) (left bytesHashed padLength : Z) : Uint8Array.t :=
  let bitLenHi := div_or0 bytesHashed 0x20000000 in
  let bitLenLo := shl bytesHashed 3 in
  let buffer := Uint8Array.set buffer left 0x80 in
  let buffer := for_loop (left + 1) (padLength - 8) (fun i b => Uint8Array.set b i 0) buffer in
  let buffer := writeUint32BE bitLenHi buffer (padLength - 8) in
  let buffer := writeUint32BE bitLenLo buffer (padLength - 4) in
  buffer.

Definition padLength_of (bytesHashed : Z) : Z :=
  if rem bytesHashed 64 <? 56 then 64 else 128.

(** [finish(out)] returns [this]; the model returns what [out] holds after
    the call. *)
Definition finish (out : Uint8Array.t) : method Uint8Array.t := fun this =>
  let this :=
    if negb (_finished this) then
      let bytesHashed := _bytesHashed this in
      let left := _bufferLength this in
      let padLength := padLength_of bytesHashed in
      let buffer := pad_buffer (_buffer this) left bytesHashed padLength in
      let '(w, v, _) := hashBlocks (_temp this) (_state this) buffer 0 padLength in
      with_finished true (with_state v (with_temp w (with_buffer buffer this)))
    else this in
  (Ok (write_state (_state this) out), this).

Definition digest : method Uint8Array.t :=
  finish (Uint8Array.make (Z.to_nat digestLength)).

Record SavedState := mkSavedState {
  state : Int32Array.t;
  buffer : option Uint8Array.t;
  bufferLength : Z;
  bytesHashed : Z
}.

Definition saveState : method SavedState := fun this =>
  if _finished this then (Throw "SHA1: cannot save finished state", this)
  else
    (Ok {| state := _state this;
           buffer := if 0 <? _bufferLength this then Some (_buffer this) else None;
           bufferLength := _bufferLength this;
           bytesHashed := _bytesHashed this |}, this).

Definition restoreState (savedState : SavedState) : method unit := fun this =>
  match typed_set (_state this) (state savedState) with
  | None => (Throw "RangeError", this)
  | Some v =>
      let this := with_state v this in
      let this := with_bufferLength (bufferLength savedState) this in
      let copied :=
        match buffer savedState with
        | Some b =>
            match typed_set (_buffer this) b with
            | Some b' => Some (with_buffer b' this)
            | None => None
            end
        | None => Some this
        end in
      match copied with
      | None => (Throw "RangeError", this)
      | Some this =>
          let this := with_bytesHashed (bytesHashed savedState) this in
          let this := with_finished false this in
          (Ok tt, this)
      end
  end.

Definition cleanSavedState (savedState : SavedState) : SavedState :=
  {| state := wipe 0 (state savedState);
     buffer := wipe x00 <$> buffer savedState;
     bufferLength := 0;
     bytesHashed := 0 |}.

(** ** The exported functions *)

Definition hash (data : Uint8Array.t) : result Uint8Array.t :=
  let h := new_SHA1 in
  fst ((call _ <- update_all data; call digest <- digest; call _ <- clean; ret digest) h).

(** A string is the list of its UTF-16 code units; a surrogate pair is one
    code point, a lone surrogate is U+FFFD. *)
Fixpoint code_points (fuel : nat) (units : list Z) : list Z :=
  match fuel, units with
  | S fuel', hi :: lo :: rest =>
      if (0xD800 <=? hi) && (hi <=? 0xDBFF) then
        if (0xDC00 <=? lo) && (lo <=? 0xDFFF)
        then (0x10000 + (hi - 0xD800) * 0x400 + (lo - 0xDC00)) :: code_points fuel' rest
        else 0xFFFD :: code_points fuel' (lo :: rest)
      else if (0xDC00 <=? hi) && (hi <=? 0xDFFF) then 0xFFFD :: code_points fuel' (lo :: rest)
      else hi :: code_points fuel' (lo :: rest)
  | S _, [u] => if (0xD800 <=? u) && (u <=? 0xDFFF) then [0xFFFD] else [u]
  | _, _ => []
  end.

Definition utf8 (cp : Z) : list byte :=
  if cp <? 0x80 then [byte_of_Z cp]
  else if cp <? 0x800 then
    [byte_of_Z (0xC0 + cp / 64); byte_of_Z (0x80 + cp mod 64)]
  else if cp <? 0x10000 then
    [byte_of_Z (0xE0 + cp / 4096); byte_of_Z (0x80 + (cp / 64) mod 64);
     byte_of_Z (0x80 + cp mod 64)]
  else
    [byte_of_Z (0xF0 + cp / 262144); byte_of_Z (0x80 + (cp / 4096) mod 64);
     byte_of_Z (0x80 + (cp / 64) mod 64); byte_of_Z (0x80 + cp mod 64)].

(** Modelled from the spec: [encode] of the platform's [TextEncoder], the
    UTF-8 text to bytes helper, with [code_points] and [utf8] above. *)
Definition TextEncoder_encode (s : list Z) : Uint8Array.t :=
  concat (utf8 <$> code_points (List.length s) s).

(** The code units of a string of ASCII characters. *)
Definition ascii_units (s : string) : list Z :=
  (fun c => Z.of_N (N_of_ascii c)) <$> list_ascii_of_string s.

Definition hex_digit (n : Z) : ascii :=
  if n <? 10 then ascii_of_N (Z.to_N (48 + n)) else ascii_of_N (Z.to_N (87 + n)).

(** Modelled from the spec: [arrayBufferToHex] of the package
    array-buffer-to-hex, the hex-encoding of the digest: two lower-case
    digits per byte. *)
Fixpoint arrayBufferToHex (bytes : list byte) : string :=
  match bytes with
  | [] => EmptyString
  | b :: rest =>
      String (hex_digit (Z_of_byte b / 16))
        (String (hex_digit (Z_of_byte b mod 16)) (arrayBufferToHex rest))
  end.

Definition sha1 (s : list Z) : result string :=
  let arr := TextEncoder_encode s in
  match hash arr with
  | Ok h => Ok (arrayBufferToHex h)
  | Throw msg => Throw msg
  end.

(** HMAC is generic over the hash: it takes the one-shot hash function
    and the block size. *)
Section HMAC.

Variable Hash : Uint8Array.t -> result Uint8Array.t.
Variable hashBlockSize : Z.

Definition xor_bytes (c : Z) (key : Uint8Array.t) : Uint8Array.t :=
  (fun b => byte_of_Z (bxor (Z_of_byte b) c)) <$> key.

Definition effective_key (key : Uint8Array.t) : result Uint8Array.t :=
  if hashBlockSize <? Uint8Array.length key then Hash key else Ok key.

Definition zero_pad (key : Uint8Array.t) : Uint8Array.t :=
  key ++ replicate (Z.to_nat (hashBlockSize - Uint8Array.length key)) x00.

Definition hmac_with (key data : Uint8Array.t) : result Uint8Array.t :=
  let innerPad := xor_bytes 0x36 (zero_pad key) in
  let outerPad := xor_bytes 0x5c (zero_pad key) in
  match Hash (innerPad ++ data) with
  | Ok inner => Hash (outerPad ++ inner)
  | Throw msg => Throw msg
  end.

(** Modelled from the spec: [hmac] of @stablelib/hmac, the generic HMAC
    construction over a hash with a block size: a key longer than the block
    size is replaced by its hash digest ([effective_key]); the key is padded
    with zero bytes to the block size ([zero_pad]); inner pad = key XOR
    0x36-repeated, outer pad = key XOR 0x5C-repeated ([xor_bytes]); the
    result is Hash(outerPad ++ Hash(innerPad ++ message)) ([hmac_with]). *)
Definition hmac (key data : Uint8Array.t) : result Uint8Array.t :=
  match effective_key key with
  | Ok key => hmac_with key data
  | Throw msg => Throw msg
  end.

End HMAC.

Definition hashWithHmac (key data : Uint8Array.t) : result Uint8Array.t :=
  hmac hash blockSize key data.

Definition HmacSHA1 (key data : list Z) : result string :=
  let k := TextEncoder_encode key in
  let d := TextEncoder_encode data in
  match hashWithHmac k d with
  | Ok h => Ok (arrayBufferToHex h)
  | Throw msg => Throw msg
  end.

(** ** What the hasher has computed after a message

    [compress] is one pass of [hashBlocks] over a block of its own, from a
    schedule array as the constructor allocates it; [absorb n v m] is the
    chaining value after the first [n] blocks of [m]. *)
Definition init_state : Int32Array.t := _state new_SHA1.

Definition compress (v : Int32Array.t) (block : Uint8Array.t) : Int32Array.t :=
  snd (hashBlock (Int32Array.make 80) v block 0).

Fixpoint absorb (n : nat) (v : Int32Array.t) (m : Uint8Array.t) : Int32Array.t :=
  match n with
  | O => v
  | S n' => absorb n' (compress v (take 64 m)) (drop 64 m)
  end.

(** The 64 bytes of [p] from [pos] are those of [p'] from [pos']. *)
Definition same_block (p : Uint8Array.t) (pos : Z) (p' : Uint8Array.t) (pos' : Z) : Prop :=
  forall k, 0 <= k < 64 -> Uint8Array.get p (pos + k) = Uint8Array.get p' (pos' + k).

Arguments hashBlock : simpl never.
Arguments compress : simpl never.
Arguments for_loop : simpl never.

(** ** What the hasher holds after a message

    [buffered m this]: the chaining value of [this] is the one after the
    whole blocks of [m], and its buffer starts with the rest of [m]. *)
Definition buffered (m : Uint8Array.t) (this : SHA1) : Prop :=
  _bufferLength this = Uint8Array.length m mod 64 /\
  _state this = absorb (Z.to_nat (Uint8Array.length m / 64)) init_state m /\
  take (Z.to_nat (Uint8Array.length m mod 64)) (_buffer this)
  = drop (Z.to_nat (64 * (Uint8Array.length m / 64))) m /\
  length (_buffer this) = 128%nat /\
  length (_temp this) = 80%nat.

Definition absorbed (m : Uint8Array.t) (this : SHA1) : Prop :=
  _finished this = false /\
  _bytesHashed this = Uint8Array.length m /\
  buffered m this.

(** The locals of [update] after [k] passes of [copy_byte]. *)
Definition copied (k : nat) (data : Uint8Array.t) (l : update_locals) : update_locals :=
  let this := l_this l in
  let bl := Z.to_nat (_bufferLength this) in
  mkLocals
    (with_bufferLength (_bufferLength this + Z.of_nat k)
       (with_buffer (take bl (_buffer this)
                     ++ take k (drop (Z.to_nat (l_dataPos l)) data)
                     ++ drop (bl + k) (_buffer this)) this))
    (l_dataPos l + Z.of_nat k) (l_dataLength l - Z.of_nat k).

(** ** What [finish] writes *)

(** The 4 big-endian bytes of a 32-bit word. *)
Definition BE32 (x : Z) : list byte :=
  [byte_of_Z (ToUint32 x / 2 ^ 24); byte_of_Z (ToUint32 x / 2 ^ 16);
   byte_of_Z (ToUint32 x / 2 ^ 8); byte_of_Z (ToUint32 x)].

(** The padding behind [left] buffered bytes of a message of [bytesHashed]
    bytes: the terminator 0x80, zeroes up to the length field, and the bit
    length as two big-endian 32-bit words, high then low. *)
Definition padding (left bytesHashed padLength : Z) : list byte :=
  [x80] ++ replicate (Z.to_nat (padLength - 9 - left)) x00
  ++ BE32 (8 * bytesHashed / 2 ^ 32) ++ BE32 (8 * bytesHashed).

(** The 20-byte big-endian serialization of the 5 state words. *)
Definition serialize (v : Int32Array.t) : list byte :=
  BE32 (Int32Array.get v 0) ++ BE32 (Int32Array.get v 1) ++ BE32 (Int32Array.get v 2)
  ++ BE32 (Int32Array.get v 3) ++ BE32 (Int32Array.get v 4).

(** The padded message, and the digest as a function of the message. *)
Definition padded (m : Uint8Array.t) : Uint8Array.t :=
  m ++ padding (Uint8Array.length m mod 64) (Uint8Array.length m)
         (padLength_of (Uint8Array.length m)).

Definition SHA1_digest (m : Uint8Array.t) : Uint8Array.t :=
  serialize (absorb (Z.to_nat (Uint8Array.length (padded m) / 64)) init_state (padded m)).

(** ** Sequences of calls *)

(** [update] once per chunk, in order. *)
Fixpoint update_chunks (chunks : list Uint8Array.t) : method unit :=
  match chunks with
  | [] => ret tt
  | chunk :: rest => call _ <- update_all chunk; update_chunks rest
  end.

(** [s] is what [saveState] returned on [that], possibly passed through
    [cleanSavedState] since. *)
Definition snapshot_of (that : SHA1) (s : SavedState) : Prop :=
  fst (saveState that) = Ok s
  \/ exists s0, fst (saveState that) = Ok s0 /\ s = cleanSavedState s0.

(** The hashers a program can hold: a constructed one, and what the public
    methods leave of one.  [update] is called with a length that is not
    negative, [restoreState] with a state that [saveState] returned. *)
Inductive reachable : SHA1 -> Prop :=
| reach_new : reachable new_SHA1
| reach_reset this : reachable this -> reachable (snd (reset this))
| reach_clean this : reachable this -> reachable (snd (clean this))
| reach_update this data dataLength :
    reachable this -> 0 <= dataLength -> reachable (snd (update data dataLength this))
| reach_finish this out : reachable this -> reachable (snd (finish out this))
| reach_digest this : reachable this -> reachable (snd (digest this))
| reach_saveState this : reachable this -> reachable (snd (saveState this))
| reach_restoreState this that s :
    reachable this -> reachable that -> snapshot_of that s ->
    reachable (snd (restoreState s this)).

(** The arrays keep the lengths they were allocated with, and the buffer
    length is the byte counter modulo the block size. *)
Definition invariant (this : SHA1) : Prop :=
  length (_state this) = 5%nat /\
  length (_temp this) = 80%nat /\
  length (_buffer this) = 128%nat /\
  0 <= _bufferLength this < 64 /\
  0 <= _bytesHashed this /\
  _bufferLength this = _bytesHashed this mod 64.

(** The fields a copy loop leaves alone. *)
Definition same_frame (this this' : SHA1) : Prop :=
  _state this' = _state this /\ _temp this' = _temp this /\
  length (_buffer this') = length (_buffer this) /\
  _bytesHashed this' = _bytesHashed this /\ _finished this' = _finished this.


(** ** The repository's tests, on the model *)

Example test_hash_bytes :
  hash [x20; x30]
  = Ok (byte_of_Z <$> [122; 229; 165; 193; 155; 22; 249; 238; 59; 0;
                       202; 54; 252; 114; 149; 54; 251; 94; 115; 7]).
Proof. vm_compute. reflexivity. Qed.

Example test_sha1_cjk :
  sha1 [0x5c0f; 0x5009; 0x552f] = Ok "701a05ff19e10fb9c4ee279f07970c20f80acd73"%string.
Proof. vm_compute. reflexivity. Qed.

Example test_HmacSHA1 :
  HmacSHA1 (ascii_units "key") (ascii_units "helloworld")
  = Ok "078a9e90cb39d3a3efe3497d035362459b197b56"%string.
Proof. vm_compute. reflexivity. Qed.

Example test_HmacSHA1_cjk :
  HmacSHA1 [0x5c0f; 0x5009; 0x552f] [0x82B1; 0x6FA4; 0x9999; 0x83DC]
  = Ok "5ce26eba771df650e39ae6ce06d894167835d774"%string.
Proof. vm_compute. reflexivity. Qed.

Example test_hashWithHmac :
  hashWithHmac [x20; x30] [x20; x31]
  = Ok (byte_of_Z <$> [119; 192; 126; 195; 234; 132; 249; 10; 89; 190; 153; 211;
                       6; 135; 211; 6; 234; 130; 42; 88]).
Proof. vm_compute. reflexivity. Qed.

(** The examples of the README. *)
Example test_readme :
  sha1 (ascii_units "test") = Ok "a94a8fe5ccb19ba61c4c0873d391e987982fbbd3"%string
  /\ sha1 [0x4e2d; 0x6587] = Ok "7be2d2d20c106eee0836c9bc2b939890a78e8fb3"%string.
Proof. repeat apply conj; vm_compute; reflexivity. Qed.

(** The lengths around the padding boundaries, on messages of letters a. *)
Example test_padding_boundaries :
  sha1 (replicate 55 97) = Ok "c1c8bbdc22796e28c0e15163d20899b65621d65a"%string
  /\ sha1 (replicate 56 97) = Ok "c2db330f6083854c99d4b5bfb6e8f29f201be699"%string
  /\ sha1 (replicate 63 97) = Ok "03f09f5b158a7a8cdad920bddc29b81c18a551f5"%string
  /\ sha1 (replicate 64 97) = Ok "0098ba824b5c16427bd7a1122a5a442a25ec644d"%string
  /\ sha1 (replicate 65 97) = Ok "11655326c708d70319be2610e8a57d9a5b959d3b"%string
  /\ sha1 (replicate 119 97) = Ok "ee971065aaa017e0632a8ca6c77bb3bf8b1dfc56"%string
  /\ sha1 (replicate 120 97) = Ok "f34c1488385346a55709ba056ddd08280dd4c6d6"%string
  /\ sha1 (replicate 128 97) = Ok "ad5b3fdbcb526778c2839d2f151ea753995e26a0"%string.
Proof. repeat apply conj; vm_compute; reflexivity. Qed.

(** A message of 130 bytes in chunks of 3, 61, 64 and 2 bytes. *)
Example test_chunks :
  fst ((call _ <- update_chunks [replicate 3 x61; replicate 61 x61; replicate 64 x61;
                                  replicate 2 x61];
        digest) new_SHA1)
  = hash (replicate 130 x61).
Proof. vm_compute. reflexivity. Qed.
(** ** Arithmetic of the 32-bit conversions *)

Lemma ToInt32_range x : - 2 ^ 31 <= ToInt32 x < 2 ^ 31.
Proof. unfold ToInt32. pose proof (Z.mod_pos_bound (x + 2 ^ 31) (2 ^ 32)). lia. Qed.

Lemma ToInt32_small x : - 2 ^ 31 <= x < 2 ^ 31 -> ToInt32 x = x.
Proof. intros H. unfold ToInt32. rewrite Z.mod_small; lia. Qed.

Lemma ToInt32_unique x r k : - 2 ^ 31 <= r < 2 ^ 31 -> r = x + k * 2 ^ 32 -> ToInt32 x = r.
Proof.
  intros Hr ->. unfold ToInt32.
  replace (x + 2 ^ 31) with (x + k * 2 ^ 32 + 2 ^ 31 + (- k) * 2 ^ 32) by lia.
  rewrite Z.mod_add by lia. rewrite Z.mod_small; lia.
Qed.

Lemma ToInt32_decomp x : exists k, ToInt32 x = x + k * 2 ^ 32.
Proof.
  exists (- ((x + 2 ^ 31) / 2 ^ 32)). unfold ToInt32.
  pose proof (Z.div_mod (x + 2 ^ 31) (2 ^ 32)). lia.
Qed.

Lemma ToInt32_idem x : ToInt32 (ToInt32 x) = ToInt32 x.
Proof. apply ToInt32_small, ToInt32_range. Qed.

Lemma ToInt32_add_l x y : ToInt32 (ToInt32 x + y) = ToInt32 (x + y).
Proof.
  destruct (ToInt32_decomp x) as [k Hk]. destruct (ToInt32_decomp (x + y)) as [j Hj].
  apply ToInt32_unique with (k := j - k); [apply ToInt32_range | lia].
Qed.

Lemma ToInt32_add_r x y : ToInt32 (x + ToInt32 y) = ToInt32 (x + y).
Proof. rewrite Z.add_comm, ToInt32_add_l. f_equal. lia. Qed.

Lemma ToUint32_ToInt32 x : ToUint32 (ToInt32 x) = ToUint32 x.
Proof.
  destruct (ToInt32_decomp x) as [k ->]. unfold ToUint32. now rewrite Z.mod_add.
Qed.

Lemma lor_disjoint_add a b n :
  0 <= n -> a mod 2 ^ n = 0 -> 0 <= b < 2 ^ n -> Z.lor a b = a + b.
Proof.
  intros Hn Ha Hb.
  rewrite <- Z.lxor_lor, <- Z.add_nocarry_lxor; trivial.
  - apply Z.bits_inj'. intros i Hi. rewrite Z.land_spec, Z.bits_0.
    destruct (Z.lt_ge_cases i n) as [Hlt | Hge].
    + rewrite <- (Z.mod_pow2_bits_low a n i), Ha, Z.bits_0 by lia. reflexivity.
    + rewrite <- (Z.mod_small b (2 ^ n)) by lia.
      rewrite Z.mod_pow2_bits_high by lia. apply andb_false_r.
  - apply Z.bits_inj'. intros i Hi. rewrite Z.land_spec, Z.bits_0.
    destruct (Z.lt_ge_cases i n) as [Hlt | Hge].
    + rewrite <- (Z.mod_pow2_bits_low a n i), Ha, Z.bits_0 by lia. reflexivity.
    + rewrite <- (Z.mod_small b (2 ^ n)) by lia.
      rewrite Z.mod_pow2_bits_high by lia. apply andb_false_r.
Qed.

Lemma safeAdd_ToInt32 x y : safeAdd x y = ToInt32 (x + y).
Proof.
  rewrite <- (ToInt32_add_l x y), <- (ToInt32_add_r (ToInt32 x) y).
  unfold safeAdd, bor, band, sar, shl.
  pose proof (ToInt32_range x) as Hx. pose proof (ToInt32_range y) as Hy.
  set (X := ToInt32 x) in *. set (Y := ToInt32 y) in *.
  change (ToInt32 65535) with (Z.ones 16).
  change (ToUint32 16 mod 32) with 16.
  rewrite !Z.land_ones, !Z.shiftr_div_pow2, !Z.shiftl_mul_pow2 by lia.
  set (lsw := X mod 2 ^ 16 + Y mod 2 ^ 16).
  assert (Hl : 0 <= lsw < 2 ^ 17).
  { subst lsw. pose proof (Z.mod_pos_bound X (2 ^ 16)). pose proof (Z.mod_pos_bound Y (2 ^ 16)). lia. }
  rewrite (ToInt32_small lsw) by lia.
  set (msw := X / 2 ^ 16 + Y / 2 ^ 16 + lsw / 2 ^ 16).
  assert (Hm : - 2 ^ 17 <= msw < 2 ^ 17).
  { subst msw. assert (- 2 ^ 15 <= X / 2 ^ 16 < 2 ^ 15) by (split; [apply Z.div_le_lower_bound | apply Z.div_lt_upper_bound]; lia).
    assert (- 2 ^ 15 <= Y / 2 ^ 16 < 2 ^ 15) by (split; [apply Z.div_le_lower_bound | apply Z.div_lt_upper_bound]; lia).
    assert (0 <= lsw / 2 ^ 16 < 2) by (split; [apply Z.div_pos | apply Z.div_lt_upper_bound]; lia).
    lia. }
  rewrite (ToInt32_small msw) by lia.
  assert (Hsum : msw * 2 ^ 16 + lsw mod 2 ^ 16 = X + Y).
  { subst msw lsw. pose proof (Z.div_mod X (2 ^ 16)). pose proof (Z.div_mod Y (2 ^ 16)).
    pose proof (Z.div_mod (X mod 2 ^ 16 + Y mod 2 ^ 16) (2 ^ 16)). lia. }
  pose proof (Z.mod_pos_bound lsw (2 ^ 16)) as Hlow.
  rewrite (ToInt32_small (lsw mod 2 ^ 16)) by lia.
  rewrite ToInt32_idem.
  destruct (ToInt32_decomp (msw * 2 ^ 16)) as [k Hk].
  pose proof (ToInt32_range (msw * 2 ^ 16)) as Hr.
  assert (Hmul : ToInt32 (msw * 2 ^ 16) = (msw + k * 2 ^ 16) * 2 ^ 16) by lia.
  rewrite (lor_disjoint_add _ _ 16); try lia.
  - symmetry. apply ToInt32_unique with (k := k); [| lia].
    rewrite Hmul in *. lia.
  - rewrite Hmul. apply Z.mod_mul. lia.
Qed.

(** ** Loops and typed arrays *)

Lemma for_range_ext {S : Type} n i (f g : Z -> S -> S) s :
  (forall j s', i <= j < i + Z.of_nat n -> f j s' = g j s') ->
  for_range n i f s = for_range n i g s.
Proof.
  revert i s. induction n as [| n IH]; intros i s H; simpl; [reflexivity |].
  rewrite (H i s) by lia. apply IH. intros j s' Hj. apply H. lia.
Qed.

Lemma for_range_inv {S : Type} (P : S -> Prop) n i (f : Z -> S -> S) s :
  P s -> (forall j s', P s' -> P (f j s')) -> P (for_range n i f s).
Proof.
  revert i s. induction n as [| n IH]; intros i s Hs Hf; simpl; auto.
Qed.

Lemma for_range_app {S : Type} n m i (f : Z -> S -> S) s :
  for_range (n + m) i f s = for_range m (i + Z.of_nat n) f (for_range n i f s).
Proof.
  revert i s. induction n as [| n IH]; intros i s; simpl.
  - f_equal. lia.
  - rewrite IH. f_equal. lia.
Qed.

Lemma Int32Array_length_set a i x : length (Int32Array.set a i x) = length a.
Proof. unfold Int32Array.set. destruct (i <? 0); [reflexivity | apply length_insert]. Qed.

Lemma Uint8Array_length_set a i x : length (Uint8Array.set a i x) = length a.
Proof. unfold Uint8Array.set. destruct (i <? 0); [reflexivity | apply length_insert]. Qed.

Lemma Z_of_byte_range b : 0 <= Z_of_byte b < 256.
Proof.
  unfold Z_of_byte. pose proof (Byte.to_N_bounded b) as H. lia.
Qed.

Lemma byte_of_Z_of_byte b : byte_of_Z (Z_of_byte b) = b.
Proof.
  unfold byte_of_Z, ToUint8. rewrite Z.mod_small by apply Z_of_byte_range.
  unfold Z_of_byte. rewrite N2Z.id, Byte.of_to_N. reflexivity.
Qed.

Lemma Z_of_byte_of_Z x : Z_of_byte (byte_of_Z x) = x mod 256.
Proof.
  unfold byte_of_Z, ToUint8. change (2 ^ 8) with 256.
  pose proof (Z.mod_pos_bound x 256 ltac:(lia)) as Hb.
  destruct (Byte.of_N (Z.to_N (x mod 256))) as [b |] eqn:E.
  - simpl. unfold Z_of_byte. apply Byte.to_of_N in E. rewrite E. lia.
  - apply Byte.of_N_None_iff in E. lia.
Qed.

Lemma Int32Array_get_take a n i :
  i < Z.of_nat n -> Int32Array.get (take n a) i = Int32Array.get a i.
Proof.
  intros H. unfold Int32Array.get. destruct (i <? 0) eqn:E; [reflexivity |].
  apply Z.ltb_ge in E. rewrite lookup_take_lt by lia. reflexivity.
Qed.

Lemma Int32Array_get_prefix a a' n i :
  take n a = take n a' -> i < Z.of_nat n -> Int32Array.get a i = Int32Array.get a' i.
Proof.
  intros Ht Hi. rewrite <- (Int32Array_get_take a n i), <- (Int32Array_get_take a' n i) by lia.
  now rewrite Ht.
Qed.

Lemma take_S_insert {A : Type} (l l' : list A) n x :
  length l = length l' -> take n l = take n l' ->
  take (S n) (<[n := x]> l) = take (S n) (<[n := x]> l').
Proof.
  intros Hlen Ht. destruct (decide (n < length l)%nat) as [Hlt | Hge].
  - rewrite (take_S_r _ n x), (take_S_r (<[n := x]> l') n x).
    + rewrite !take_insert_ge by lia. now rewrite Ht.
    + apply list_lookup_insert_eq. lia.
    + apply list_lookup_insert_eq. lia.
  - rewrite !list_insert_ge by lia. rewrite !take_ge by lia.
    rewrite <- (take_ge l n), <- (take_ge l' n) by lia. exact Ht.
Qed.

(** A loop that stores into [w[i]] a value computed from the entries below
    [i] forgets what [w] held from [i] on. *)
Lemma fill_forgets (g : Z -> Int32Array.t -> Z) :
  (forall j u u', 0 <= j -> take (Z.to_nat j) u = take (Z.to_nat j) u' -> g j u = g j u') ->
  forall n i w w',
    0 <= i -> length w = length w' -> take (Z.to_nat i) w = take (Z.to_nat i) w' ->
    length (for_range n i (fun i w => Int32Array.set w i (g i w)) w)
    = length (for_range n i (fun i w => Int32Array.set w i (g i w)) w')
    /\ take (Z.to_nat (i + Z.of_nat n)) (for_range n i (fun i w => Int32Array.set w i (g i w)) w)
       = take (Z.to_nat (i + Z.of_nat n)) (for_range n i (fun i w => Int32Array.set w i (g i w)) w').
Proof.
  intros Hg. induction n as [| n IH]; intros i w w' Hi Hlen Ht; simpl.
  - split; [exact Hlen |]. now rewrite Z.add_0_r.
  - replace (i + Z.of_nat (S n)) with (i + 1 + Z.of_nat n) by lia.
    apply IH; [lia | now rewrite !Int32Array_length_set |].
    rewrite (Hg i w w' Hi Ht). unfold Int32Array.set.
    destruct (i <? 0) eqn:E; [apply Z.ltb_lt in E; lia |].
    replace (Z.to_nat (i + 1)) with (S (Z.to_nat i)) by lia.
    now apply take_S_insert.
Qed.

Lemma load_words_length p pos w : length (load_words p pos w) = length w.
Proof.
  unfold load_words, for_loop.
  apply (for_range_inv (fun u => length u = length w)); [reflexivity |].
  intros j u Hu. now rewrite Int32Array_length_set.
Qed.

Lemma expand_words_length w : length (expand_words w) = length w.
Proof.
  unfold expand_words, for_loop.
  apply (for_range_inv (fun u => length u = length w)); [reflexivity |].
  intros j u Hu. now rewrite Int32Array_length_set.
Qed.

Lemma fill_loop_forgets (g : Z -> list Z -> Z) lo hi w w' :
  (forall j u u', 0 <= j -> take (Z.to_nat j) u = take (Z.to_nat j) u' -> g j u = g j u') ->
  0 <= lo <= hi -> length w = length w' -> take (Z.to_nat lo) w = take (Z.to_nat lo) w' ->
  length (for_loop lo hi (fun i w => Int32Array.set w i (g i w)) w)
  = length (for_loop lo hi (fun i w => Int32Array.set w i (g i w)) w')
  /\ take (Z.to_nat hi) (for_loop lo hi (fun i w => Int32Array.set w i (g i w)) w)
     = take (Z.to_nat hi) (for_loop lo hi (fun i w => Int32Array.set w i (g i w)) w').
Proof.
  intros Hg Hlo Hlen Ht. unfold for_loop.
  destruct (fill_forgets g Hg (Z.to_nat (hi - lo)) lo w w' ltac:(lia) Hlen Ht) as [H1 H2].
  split; [exact H1 |].
  replace (lo + Z.of_nat (Z.to_nat (hi - lo))) with hi in H2 by lia. exact H2.
Qed.

(** The schedule does not depend on what the array held before. *)
Lemma schedule_forgets p pos w w' :
  length w = 80%nat -> length w' = 80%nat ->
  expand_words (load_words p pos w) = expand_words (load_words p pos w').
Proof.
  intros Hw Hw'.
  destruct (fill_loop_forgets (fun i _ => readUint32BE p (pos + i * 4)) 0 16 w w')
    as [Hl1 Ht1]; [reflexivity | lia | congruence | reflexivity |].
  fold (load_words p pos w) in Hl1, Ht1. fold (load_words p pos w') in Hl1, Ht1.
  pose proof (expand_words_length (load_words p pos w)) as L.
  pose proof (expand_words_length (load_words p pos w')) as L'.
  rewrite load_words_length in L, L'.
  rewrite <- (take_ge (expand_words (load_words p pos w)) (Z.to_nat 80)) by lia.
  rewrite <- (take_ge (expand_words (load_words p pos w')) (Z.to_nat 80)) by lia.
  unfold expand_words.
  apply fill_loop_forgets; [| lia | exact Hl1 | exact Ht1].
  intros j u u' Hj Hu.
  rewrite (Int32Array_get_prefix u u' _ (j - 3) Hu), (Int32Array_get_prefix u u' _ (j - 8) Hu),
    (Int32Array_get_prefix u u' _ (j - 14) Hu), (Int32Array_get_prefix u u' _ (j - 16) Hu)
    by lia.
  reflexivity.
Qed.

(** ** The compression engine reads one block and keeps nothing else *)

Ltac zdiv := Z.div_mod_to_equations; lia.

Lemma Uint8Array_get_lookup (a : list byte) i b :
  0 <= i -> a !! Z.to_nat i = Some b -> Uint8Array.get a i = Z_of_byte b.
Proof.
  intros Hi Hb. unfold Uint8Array.get.
  destruct (i <? 0) eqn:E; [apply Z.ltb_lt in E; lia |]. now rewrite Hb.
Qed.

Lemma readUint32BE_ext p pos p' pos' j :
  same_block p pos p' pos' -> 0 <= j < 16 ->
  readUint32BE p (pos + j * 4) = readUint32BE p' (pos' + j * 4).
Proof.
  intros H Hj. unfold readUint32BE.
  rewrite (H (j * 4)) by lia.
  replace (pos + j * 4 + 1) with (pos + (j * 4 + 1)) by lia.
  replace (pos + j * 4 + 2) with (pos + (j * 4 + 2)) by lia.
  replace (pos + j * 4 + 3) with (pos + (j * 4 + 3)) by lia.
  rewrite (H (j * 4 + 1)), (H (j * 4 + 2)), (H (j * 4 + 3)) by lia.
  replace (pos' + j * 4 + 1) with (pos' + (j * 4 + 1)) by lia.
  replace (pos' + j * 4 + 2) with (pos' + (j * 4 + 2)) by lia.
  replace (pos' + j * 4 + 3) with (pos' + (j * 4 + 3)) by lia.
  reflexivity.
Qed.

Lemma load_words_ext p pos p' pos' w :
  same_block p pos p' pos' -> load_words p pos w = load_words p' pos' w.
Proof.
  intros H. unfold load_words, for_loop. apply for_range_ext.
  intros j u Hj. cbv zeta. f_equal. apply readUint32BE_ext; [exact H | lia].
Qed.

Lemma hashBlock_ext w w' v p pos p' pos' :
  same_block p pos p' pos' -> length w = 80%nat -> length w' = 80%nat ->
  hashBlock w v p pos = hashBlock w' v p' pos'.
Proof.
  intros H Hw Hw'. unfold hashBlock.
  rewrite (load_words_ext p pos p' pos' w H).
  rewrite (schedule_forgets p' pos' w w' Hw Hw'). reflexivity.
Qed.

Lemma hashBlock_temp_length w v p pos : length (fst (hashBlock w v p pos)) = length w.
Proof. unfold hashBlock. cbn [fst]. now rewrite expand_words_length, load_words_length. Qed.

Lemma hashBlock_state_length w v p pos : length (snd (hashBlock w v p pos)) = length v.
Proof.
  unfold hashBlock, accumulate. cbn [snd]. now rewrite !Int32Array_length_set.
Qed.

Lemma same_block_take_drop (p : list byte) pos :
  0 <= pos -> pos + 64 <= Z.of_nat (length p) ->
  same_block p pos (take 64 (drop (Z.to_nat pos) p)) 0.
Proof.
  intros Hpos Hlen k Hk. unfold Uint8Array.get.
  destruct (pos + k <? 0) eqn:E1; [apply Z.ltb_lt in E1; lia |].
  destruct (0 + k <? 0) eqn:E2; [apply Z.ltb_lt in E2; lia |].
  rewrite lookup_take_lt by lia. rewrite lookup_drop.
  repeat f_equal. lia.
Qed.

Lemma hashBlock_compress w v (p : list byte) pos :
  length w = 80%nat -> 0 <= pos -> pos + 64 <= Z.of_nat (length p) ->
  snd (hashBlock w v p pos) = compress v (take 64 (drop (Z.to_nat pos) p)).
Proof.
  intros Hw Hpos Hlen. unfold compress.
  rewrite (hashBlock_ext w (Int32Array.make 80) v p pos (take 64 (drop (Z.to_nat pos) p)) 0);
    trivial.
  now apply same_block_take_drop.
Qed.

Lemma compress_length v block : length (compress v block) = length v.
Proof. apply hashBlock_state_length. Qed.

Lemma absorb_length n v m : length (absorb n v m) = length v.
Proof.
  revert v m. induction n as [| n IH]; intros v m; cbn [absorb]; [reflexivity |].
  now rewrite IH, compress_length.
Qed.

(** [hashBlocks] over [len] bytes of [p] from [pos] is [absorb] over these
    bytes, and returns the position after the last whole block. *)
Lemma hashBlocks_loop_absorb fuel w v (p : list byte) pos len :
  length w = 80%nat -> 0 <= pos -> 0 <= len -> pos + len <= Z.of_nat (length p) ->
  (Z.to_nat (len / 64) <= fuel)%nat ->
  exists w', length w' = 80%nat /\
    hashBlocks_loop fuel w v p pos len
    = (w', absorb (Z.to_nat (len / 64)) v (drop (Z.to_nat pos) p), pos + 64 * (len / 64)).
Proof.
  revert w v pos len. induction fuel as [| fuel IH]; intros w v pos len Hw Hpos Hlen Hp Hfuel.
  - cbn [hashBlocks_loop]. exists w. split; [exact Hw |].
    assert (len / 64 = 0) as -> by zdiv. cbn [Z.to_nat absorb]. f_equal. lia.
  - cbn [hashBlocks_loop]. destruct (64 <=? len) eqn:E.
    + apply Z.leb_le in E.
      destruct (hashBlock w v p pos) as [w1 v1] eqn:Hb.
      assert (Hw1 : length w1 = 80%nat).
      { pose proof (hashBlock_temp_length w v p pos) as H. rewrite Hb in H. cbn [fst] in H. lia. }
      assert (Hv1 : v1 = compress v (take 64 (drop (Z.to_nat pos) p))).
      { rewrite <- (hashBlock_compress w v p pos) by lia. now rewrite Hb. }
      destruct (IH w1 v1 (pos + 64) (len - 64)) as [w' [Hw' Heq]]; try lia.
      { zdiv. }
      exists w'. split; [exact Hw' |]. rewrite Heq.
      assert (Hq : len / 64 = (len - 64) / 64 + 1) by zdiv.
      assert (0 <= (len - 64) / 64) by zdiv.
      rewrite Hq. replace (Z.to_nat ((len - 64) / 64 + 1)) with (S (Z.to_nat ((len - 64) / 64))) by lia.
      cbn [absorb]. rewrite drop_drop, <- Hv1.
      replace (Z.to_nat pos + 64)%nat with (Z.to_nat (pos + 64)) by lia.
      f_equal. lia.
    + apply Z.leb_gt in E. exists w. split; [exact Hw |].
      assert (len / 64 = 0) as -> by zdiv. cbn [Z.to_nat absorb]. f_equal. lia.
Qed.

Lemma hashBlocks_absorb w v (p : list byte) pos len :
  length w = 80%nat -> 0 <= pos -> 0 <= len -> pos + len <= Z.of_nat (length p) ->
  exists w', length w' = 80%nat /\
    hashBlocks w v p pos len
    = (w', absorb (Z.to_nat (len / 64)) v (drop (Z.to_nat pos) p), pos + 64 * (len / 64)).
Proof. intros. unfold hashBlocks. apply hashBlocks_loop_absorb; trivial. Qed.

(** The fuel [hashBlocks] gives its loop is enough: more changes nothing,
    and the loop stops because fewer than 64 bytes are left. *)
Lemma hashBlocks_loop_fuel fuel extra w v p pos len :
  (Z.to_nat (len / 64) <= fuel)%nat ->
  hashBlocks_loop (fuel + extra) w v p pos len = hashBlocks_loop fuel w v p pos len.
Proof.
  revert w v pos len. induction fuel as [| fuel IH]; intros w v pos len Hfuel.
  - destruct extra as [| extra]; [reflexivity |]. cbn [hashBlocks_loop Nat.add].
    destruct (64 <=? len) eqn:E; [| reflexivity].
    apply Z.leb_le in E. assert (1 <= len / 64) by zdiv. lia.
  - cbn [hashBlocks_loop Nat.add]. destruct (64 <=? len) eqn:E; [| reflexivity].
    apply Z.leb_le in E. destruct (hashBlock w v p pos) as [w1 v1].
    apply IH. assert (len / 64 = (len - 64) / 64 + 1) by zdiv.
    assert (0 <= (len - 64) / 64) by zdiv. lia.
Qed.

Lemma absorb_take n v (m : list byte) :
  absorb n v (take (64 * n) m) = absorb n v m.
Proof.
  revert v m. induction n as [| n IH]; intros v m; cbn [absorb]; [reflexivity |].
  rewrite take_take. replace (64 `min` (64 * S n))%nat with 64%nat by lia.
  rewrite <- (IH _ (drop 64 m)). f_equal.
  rewrite take_drop_commute. f_equal. f_equal. lia.
Qed.

Lemma absorb_app_l n v (m m' : list byte) :
  (64 * n <= length m)%nat -> absorb n v (m ++ m') = absorb n v m.
Proof.
  intros H. rewrite <- (absorb_take n v (m ++ m')), <- (absorb_take n v m).
  now rewrite take_app_le.
Qed.

Lemma absorb_add a b v (m : list byte) :
  absorb (a + b) v m = absorb b (absorb a v m) (drop (64 * a) m).
Proof.
  revert v m. induction a as [| a IH]; intros v m; cbn [absorb Nat.add].
  - now rewrite drop_0.
  - rewrite IH, drop_drop. do 2 f_equal. lia.
Qed.

Lemma hashBlock_eq w v p pos :
  hashBlock w v p pos
  = (expand_words (load_words p pos w),
     let s := rounds (expand_words (load_words p pos w)) v in
     accumulate (accumulate (accumulate (accumulate (accumulate v 0 (va s)) 1 (vb s))
                                        2 (vc s)) 3 (vd s)) 4 (ve s)).
Proof. reflexivity. Qed.

(** From here on the engine is used through the lemmas above. *)
Opaque hashBlock compress.

(** ** The copy loops of [update] *)

Lemma copied_0 data l : 0 <= _bufferLength (l_this l) -> copied 0 data l = l.
Proof.
  intros H. destruct l as [[v w b bl bh f] dp dl]. unfold copied, with_bufferLength, with_buffer.
  cbn [l_this l_dataPos l_dataLength _state _temp _buffer _bufferLength _bytesHashed _finished] in *.
  rewrite take_0, Nat.add_0_r, app_nil_l, take_drop.
  replace (bl + Z.of_nat 0) with bl by lia. replace (dp + Z.of_nat 0) with dp by lia.
  replace (dl - Z.of_nat 0) with dl by lia. reflexivity.
Qed.

Lemma copy_byte_copied k (data : list byte) l :
  0 <= _bufferLength (l_this l) -> 0 <= l_dataPos l ->
  _bufferLength (l_this l) < Z.of_nat (length (_buffer (l_this l))) ->
  l_dataPos l < Z.of_nat (length data) ->
  copied k data (copy_byte data l) = copied (S k) data l.
Proof.
  destruct l as [[v w b bl bh f] dp dl]. unfold copied, copy_byte, with_bufferLength, with_buffer.
  cbn [l_this l_dataPos l_dataLength _state _temp _buffer _bufferLength _bytesHashed _finished].
  intros Hbl Hdp Hb Hd.
  destruct (lookup_lt_is_Some_2 data (Z.to_nat dp) ltac:(lia)) as [x Hx].
  rewrite (Uint8Array_get_lookup data dp x Hdp Hx).
  unfold Uint8Array.set. destruct (bl <? 0) eqn:E; [apply Z.ltb_lt in E; lia |].
  rewrite byte_of_Z_of_byte.
  replace (Z.to_nat (bl + 1)) with (S (Z.to_nat bl)) by lia.
  replace (Z.to_nat (dp + 1)) with (S (Z.to_nat dp)) by lia.
  rewrite (take_S_r _ _ x) by (apply list_lookup_insert_eq; lia).
  rewrite take_insert_ge by lia. rewrite drop_insert_lt by lia.
  rewrite (drop_S data x (Z.to_nat dp) Hx). cbn [take].
  rewrite <- !app_assoc. cbn [app].
  replace (S (Z.to_nat bl) + k)%nat with (Z.to_nat bl + S k)%nat by lia.
  replace (bl + 1 + Z.of_nat k) with (bl + Z.of_nat (S k)) by lia.
  replace (dp + 1 + Z.of_nat k) with (dp + Z.of_nat (S k)) by lia.
  replace (dl - 1 - Z.of_nat k) with (dl - Z.of_nat (S k)) by lia.
  reflexivity.
Qed.

Lemma tail_loop_copied fuel (data : list byte) l :
  0 <= l_dataLength l -> (Z.to_nat (l_dataLength l) <= fuel)%nat ->
  0 <= _bufferLength (l_this l) -> 0 <= l_dataPos l ->
  _bufferLength (l_this l) + l_dataLength l <= Z.of_nat (length (_buffer (l_this l))) ->
  l_dataPos l + l_dataLength l <= Z.of_nat (length data) ->
  tail_loop fuel data l = copied (Z.to_nat (l_dataLength l)) data l.
Proof.
  revert l. induction fuel as [| fuel IH]; intros l Hdl Hfuel Hbl Hdp Hb Hd.
  - cbn [tail_loop]. replace (Z.to_nat (l_dataLength l)) with 0%nat by lia.
    now rewrite copied_0.
  - cbn [tail_loop]. destruct (0 <? l_dataLength l) eqn:E.
    + apply Z.ltb_lt in E.
      replace (Z.to_nat (l_dataLength l)) with (S (Z.to_nat (l_dataLength l - 1))) by lia.
      rewrite <- copy_byte_copied by lia.
      assert (Hlen : length (_buffer (l_this (copy_byte data l))) = length (_buffer (l_this l))).
      { destruct l as [[v w b bl bh f] dp dl]. apply Uint8Array_length_set. }
      rewrite IH.
      * destruct l as [[v w b bl bh f] dp dl]. reflexivity.
      * destruct l as [[v w b bl bh f] dp dl]. cbn in *. lia.
      * destruct l as [[v w b bl bh f] dp dl]. cbn in *. lia.
      * destruct l as [[v w b bl bh f] dp dl]. cbn in *. lia.
      * destruct l as [[v w b bl bh f] dp dl]. cbn in *. lia.
      * rewrite Hlen. destruct l as [[v w b bl bh f] dp dl]. cbn in *. lia.
      * destruct l as [[v w b bl bh f] dp dl]. cbn in *. lia.
    + apply Z.ltb_ge in E. replace (Z.to_nat (l_dataLength l)) with 0%nat by lia.
      now rewrite copied_0.
Qed.

Lemma fill_loop_copied fuel (data : list byte) l :
  0 <= l_dataLength l -> (Z.to_nat (l_dataLength l) <= fuel)%nat ->
  0 <= _bufferLength (l_this l) <= 64 -> 0 <= l_dataPos l ->
  64 <= Z.of_nat (length (_buffer (l_this l))) ->
  l_dataPos l + l_dataLength l <= Z.of_nat (length data) ->
  fill_loop fuel data l
  = copied (Z.to_nat (Z.min (64 - _bufferLength (l_this l)) (l_dataLength l))) data l.
Proof.
  revert l. induction fuel as [| fuel IH]; intros l Hdl Hfuel Hbl Hdp Hb Hd.
  - cbn [fill_loop].
    replace (Z.to_nat (Z.min (64 - _bufferLength (l_this l)) (l_dataLength l))) with 0%nat by lia.
    now rewrite copied_0.
  - cbn [fill_loop]. unfold blockSize, BLOCK_SIZE.
    destruct (_bufferLength (l_this l) <? 64) eqn:E1; cbn [andb];
      [destruct (0 <? l_dataLength l) eqn:E2 |].
    + apply Z.ltb_lt in E1, E2.
      replace (Z.to_nat (Z.min (64 - _bufferLength (l_this l)) (l_dataLength l)))
        with (S (Z.to_nat (Z.min (64 - (_bufferLength (l_this l) + 1)) (l_dataLength l - 1))))
        by lia.
      rewrite <- copy_byte_copied by lia.
      assert (Hlen : length (_buffer (l_this (copy_byte data l))) = length (_buffer (l_this l))).
      { destruct l as [[v w b bl bh f] dp dl]. apply Uint8Array_length_set. }
      rewrite IH.
      * destruct l as [[v w b bl bh f] dp dl]. reflexivity.
      * destruct l as [[v w b bl bh f] dp dl]. cbn in *. lia.
      * destruct l as [[v w b bl bh f] dp dl]. cbn in *. lia.
      * destruct l as [[v w b bl bh f] dp dl]. cbn in *. lia.
      * destruct l as [[v w b bl bh f] dp dl]. cbn in *. lia.
      * rewrite Hlen. lia.
      * destruct l as [[v w b bl bh f] dp dl]. cbn in *. lia.
    + apply Z.ltb_ge in E2.
      replace (Z.to_nat (Z.min (64 - _bufferLength (l_this l)) (l_dataLength l))) with 0%nat by lia.
      now rewrite copied_0.
    + apply Z.ltb_ge in E1.
      replace (Z.to_nat (Z.min (64 - _bufferLength (l_this l)) (l_dataLength l))) with 0%nat by lia.
      now rewrite copied_0.
Qed.

(** The fuel [update] gives its copy loops is enough: with more fuel they
    do the same, because they stop on their conditions. *)
Lemma tail_loop_fuel fuel extra data l :
  (Z.to_nat (l_dataLength l) <= fuel)%nat ->
  tail_loop (fuel + extra) data l = tail_loop fuel data l.
Proof.
  revert l. induction fuel as [| fuel IH]; intros l Hfuel.
  - destruct extra as [| extra]; [reflexivity |]. cbn [tail_loop Nat.add].
    destruct (0 <? l_dataLength l) eqn:E; [apply Z.ltb_lt in E; lia | reflexivity].
  - cbn [tail_loop Nat.add]. destruct (0 <? l_dataLength l) eqn:E; [| reflexivity].
    apply Z.ltb_lt in E. apply IH.
    destruct l as [this dp dl]. cbn [copy_byte l_dataLength] in *. lia.
Qed.

Lemma fill_loop_fuel fuel extra data l :
  (Z.to_nat (l_dataLength l) <= fuel)%nat ->
  fill_loop (fuel + extra) data l = fill_loop fuel data l.
Proof.
  revert l. induction fuel as [| fuel IH]; intros l Hfuel.
  - destruct extra as [| extra]; [reflexivity |]. cbn [fill_loop Nat.add].
    destruct (0 <? l_dataLength l) eqn:E; [apply Z.ltb_lt in E; lia |].
    now rewrite andb_false_r.
  - cbn [fill_loop Nat.add].
    destruct ((_bufferLength (l_this l) <? blockSize) && (0 <? l_dataLength l)) eqn:E;
      [| reflexivity].
    apply andb_true_iff in E. destruct E as [_ E]. apply Z.ltb_lt in E. apply IH.
    destruct l as [this dp dl]. cbn [copy_byte l_dataLength] in *. lia.
Qed.

(** ** [update] appends to the absorbed message *)

Lemma length_app_Z (m c : list byte) :
  Uint8Array.length (m ++ c) = Uint8Array.length m + Uint8Array.length c.
Proof. unfold Uint8Array.length. rewrite length_app. lia. Qed.

(** Bytes copied behind the buffered ones, the block not yet full. *)
Lemma buffered_copy m c this :
  buffered m this -> Uint8Array.length m mod 64 + Uint8Array.length c < 64 ->
  buffered (m ++ c)
    (with_bufferLength (_bufferLength this + Uint8Array.length c)
       (with_buffer (take (Z.to_nat (_bufferLength this)) (_buffer this) ++ c
                     ++ drop (Z.to_nat (_bufferLength this) + length c) (_buffer this)) this)).
Proof.
  intros (Hbl & Hst & Hbuf & Hlb & Hlt) Hc.
  unfold buffered, with_bufferLength, with_buffer.
  cbn [_state _temp _buffer _bufferLength].
  rewrite length_app_Z. rewrite Hbl. unfold Uint8Array.length in *.
  set (M := Z.of_nat (length m)) in *. set (C := Z.of_nat (length c)) in *.
  assert (HM : 0 <= M) by lia. assert (HC : 0 <= C) by lia.
  assert (Hq : (M + C) / 64 = M / 64) by zdiv.
  assert (Hr : (M + C) mod 64 = M mod 64 + C) by zdiv.
  assert (HL : 0 <= M mod 64 < 64) by zdiv.
  assert (HQ : 0 <= 64 * (M / 64) <= M) by zdiv.
  split; [| split; [| split; [| split]]].
  - lia.
  - rewrite Hq, Hst. symmetry. apply absorb_app_l. lia.
  - rewrite Hq, Hr. rewrite drop_app_le by lia. rewrite <- Hbuf.
    rewrite app_assoc. apply take_app_length'.
    rewrite length_app, length_take. lia.
  - rewrite !length_app, length_take, length_drop. lia.
  - exact Hlt.
Qed.

(** The buffered block filled up by [c] and hashed. *)
Lemma buffered_flush m c w this :
  buffered m this -> Uint8Array.length m mod 64 + Uint8Array.length c = 64 ->
  length w = 80%nat ->
  buffered (m ++ c)
    (with_bufferLength 0
       (with_state (compress (_state this)
                      (take (Z.to_nat (_bufferLength this)) (_buffer this) ++ c))
          (with_temp w
             (with_buffer (take (Z.to_nat (_bufferLength this)) (_buffer this) ++ c
                     ++ drop (Z.to_nat (_bufferLength this) + length c) (_buffer this)) this)))).
Proof.
  intros (Hbl & Hst & Hbuf & Hlb & Hlt) Hc Hw.
  unfold buffered, with_bufferLength, with_buffer, with_state, with_temp.
  cbn [_state _temp _buffer _bufferLength].
  rewrite length_app_Z. rewrite Hbl. unfold Uint8Array.length in *.
  set (M := Z.of_nat (length m)) in *. set (C := Z.of_nat (length c)) in *.
  assert (HM : 0 <= M) by lia. assert (HC : 0 <= C) by lia.
  assert (Hq : (M + C) / 64 = M / 64 + 1) by zdiv.
  assert (Hr : (M + C) mod 64 = 0) by zdiv.
  assert (HL : 0 <= M mod 64 < 64) by zdiv.
  assert (HQ : 0 <= 64 * (M / 64) <= M) by zdiv.
  assert (Hm : M = 64 * (M / 64) + M mod 64) by zdiv.
  split; [| split; [| split; [| split]]].
  - lia.
  - rewrite Hq. replace (Z.to_nat (M / 64 + 1)) with (Z.to_nat (M / 64) + 1)%nat by lia.
    rewrite absorb_add. rewrite absorb_app_l by lia. rewrite <- Hst.
    cbn [absorb]. apply (f_equal (compress (_state this))).
    rewrite drop_app_le by lia.
    replace (64 * Z.to_nat (M / 64))%nat with (Z.to_nat (64 * (M / 64))) by lia.
    rewrite <- Hbuf. rewrite (take_ge (_ ++ c) 64); [reflexivity |].
    rewrite length_app, length_take. lia.
  - rewrite Hr. cbn [Z.to_nat take]. symmetry. apply drop_ge.
    rewrite length_app. lia.
  - rewrite !length_app, length_take, length_drop. lia.
  - exact Hw.
Qed.

(** Whole blocks hashed straight from the data, the buffer being empty. *)
Lemma buffered_direct m c c' q w this :
  buffered m this -> Uint8Array.length m mod 64 = 0 ->
  c = take (64 * q) c' -> length c = (64 * q)%nat -> length w = 80%nat ->
  buffered (m ++ c) (with_state (absorb q (_state this) c') (with_temp w this)).
Proof.
  intros (Hbl & Hst & Hbuf & Hlb & Hlt) Hm0 Hc Hlc Hw.
  unfold buffered, with_state, with_temp.
  cbn [_state _temp _buffer _bufferLength].
  rewrite length_app_Z. rewrite Hbl. unfold Uint8Array.length in *. rewrite Hlc.
  set (M := Z.of_nat (length m)) in *.
  assert (HM : 0 <= M) by lia.
  assert (Hq : (M + Z.of_nat (64 * q)) / 64 = M / 64 + Z.of_nat q) by zdiv.
  assert (Hr : (M + Z.of_nat (64 * q)) mod 64 = 0) by zdiv.
  assert (Hm : M = 64 * (M / 64)) by zdiv.
  split; [| split; [| split; [| split]]].
  - lia.
  - rewrite Hq. replace (Z.to_nat (M / 64 + Z.of_nat q)) with (Z.to_nat (M / 64) + q)%nat by lia.
    rewrite absorb_add. rewrite absorb_app_l by lia. rewrite <- Hst.
    rewrite drop_app_length' by lia. rewrite Hc. now rewrite absorb_take.
  - rewrite Hr. cbn [Z.to_nat take]. symmetry. apply drop_ge.
    rewrite length_app. lia.
  - exact Hlb.
  - exact Hw.
Qed.

Lemma fill_buffer_buffered m (data : list byte) this :
  buffered m this ->
  exists (k : nat) this1,
    Z.of_nat k <= Uint8Array.length data
    /\ fill_buffer data (mkLocals this 0 (Uint8Array.length data))
       = mkLocals this1 (Z.of_nat k) (Uint8Array.length data - Z.of_nat k)
    /\ buffered (m ++ take k data) this1
    /\ (Z.of_nat k = Uint8Array.length data
        \/ Uint8Array.length (m ++ take k data) mod 64 = 0)
    /\ _finished this1 = _finished this
    /\ _bytesHashed this1 = _bytesHashed this.
Proof.
  intros Hb. pose proof Hb as (Hbl & Hst & Hbuf & Hlb & Hlt).
  assert (HL : 0 <= Uint8Array.length m mod 64 < 64) by zdiv.
  unfold fill_buffer. cbn [l_this l_dataLength l_dataPos].
  destruct (0 <? _bufferLength this) eqn:E.
  - apply Z.ltb_lt in E.
    rewrite fill_loop_copied; cbn [l_this l_dataLength l_dataPos];
      unfold Uint8Array.length in *; try lia.
    set (k := Z.to_nat (Z.min (64 - _bufferLength this) (Z.of_nat (length data)))).
    assert (Hk : Z.of_nat k = Z.min (64 - _bufferLength this) (Z.of_nat (length data))) by lia.
    unfold copied. cbn [l_this l_dataLength l_dataPos].
    unfold with_bufferLength at 1. unfold blockSize, BLOCK_SIZE. cbn [_bufferLength].
    change (Z.to_nat 0) with 0%nat. rewrite drop_0.
    assert (Hlk : length (take k data) = k) by (rewrite length_take; lia).
    destruct (_bufferLength this + Z.of_nat k =? 64) eqn:E2.
    + apply Z.eqb_eq in E2.
      match goal with
      | |- context [hashBlocks ?w ?v ?p 0 64] =>
          destruct (hashBlocks_absorb w v p 0 64) as [w' [Hw' Heq]]
      end.
      { exact Hlt. }
      { lia. }
      { lia. }
      { unfold with_bufferLength, with_buffer. cbn [_buffer].
        rewrite !length_app, length_take, length_drop. lia. }
      cbn [_temp _state _buffer with_bufferLength with_buffer] in Heq |- *.
      rewrite Heq. clear Heq.
      change (Z.to_nat (64 / 64)) with 1%nat. cbn [absorb]. change (Z.to_nat 0) with 0%nat.
      rewrite drop_0.
      match goal with
      | |- context [take 64 (?x ++ ?y ++ ?z)] =>
          replace (take 64 (x ++ y ++ z)) with (x ++ y)
            by (rewrite app_assoc, take_app_length'; [reflexivity |];
                rewrite length_app, length_take; lia)
      end.
      exists k. eexists. split; [lia |]. split; [reflexivity |].
      split; [| split; [| split]].
      * pose proof (buffered_flush m (take k data) w' this Hb) as Hf.
        unfold Uint8Array.length in Hf. rewrite Hlk in Hf.
        specialize (Hf ltac:(lia) Hw').
        destruct this as [v w b bl bh f]. exact Hf.
      * right. rewrite length_app, Hlk. zdiv.
      * destruct this as [v w b bl bh f]. reflexivity.
      * destruct this as [v w b bl bh f]. reflexivity.
    + apply Z.eqb_neq in E2.
      assert (HkN : k = length data) by lia.
      exists k. eexists. split; [lia |]. split; [reflexivity |].
      split; [| split; [| split]].
      * pose proof (buffered_copy m (take k data) this Hb) as Hf.
        unfold Uint8Array.length in Hf. rewrite Hlk in Hf.
        specialize (Hf ltac:(lia)). exact Hf.
      * left. lia.
      * destruct this as [v w b bl bh f]. reflexivity.
      * destruct this as [v w b bl bh f]. reflexivity.
  - apply Z.ltb_ge in E. exists 0%nat, this.
    rewrite take_0, app_nil_r. unfold Uint8Array.length in *.
    split; [lia |]. split; [f_equal; lia |]. split; [exact Hb |].
    split; [right; lia |]. split; reflexivity.
Qed.

Lemma hash_direct_buffered m (data : list byte) this k dl :
  buffered m this -> 0 <= k -> 0 <= dl -> k + dl = Uint8Array.length data ->
  dl = 0 \/ Uint8Array.length m mod 64 = 0 ->
  exists (q : nat) this2,
    hash_direct data (mkLocals this k dl)
    = mkLocals this2 (k + 64 * Z.of_nat q) (dl - 64 * Z.of_nat q)
    /\ 0 <= dl - 64 * Z.of_nat q
    /\ buffered (m ++ take (64 * q) (drop (Z.to_nat k) data)) this2
    /\ Uint8Array.length (m ++ take (64 * q) (drop (Z.to_nat k) data)) mod 64
       + (dl - 64 * Z.of_nat q) < 64
    /\ _finished this2 = _finished this
    /\ _bytesHashed this2 = _bytesHashed this.
Proof.
  intros Hb Hk Hdl Hsum Hor. pose proof Hb as (Hbl & Hst & Hbuf & Hlb & Hlt).
  assert (HL : 0 <= Uint8Array.length m mod 64 < 64) by zdiv.
  unfold hash_direct. cbn [l_this l_dataLength l_dataPos]. unfold blockSize, BLOCK_SIZE.
  unfold Uint8Array.length in *.
  destruct (64 <=? dl) eqn:E.
  - apply Z.leb_le in E. assert (Hm0 : Z.of_nat (length m) mod 64 = 0) by lia.
    destruct (hashBlocks_absorb (_temp this) (_state this) data k dl) as [w' [Hw' Heq]];
      trivial; try lia.
    rewrite Heq. clear Heq.
    set (q := Z.to_nat (dl / 64)).
    assert (Hq : Z.of_nat q = dl / 64) by (subst q; zdiv).
    assert (Hlc : length (take (64 * q) (drop (Z.to_nat k) data)) = (64 * q)%nat).
    { rewrite length_take, length_drop. zdiv. }
    exists q. eexists. split; [| split; [| split; [| split; [| split]]]].
    + unfold rem. rewrite Z.rem_mod_nonneg by lia. f_equal; zdiv.
    + zdiv.
    + apply (buffered_direct m _ (drop (Z.to_nat k) data) q w' this Hb Hm0 eq_refl Hlc Hw').
    + rewrite length_app, Hlc. zdiv.
    + reflexivity.
    + reflexivity.
  - apply Z.leb_gt in E. exists 0%nat, this.
    change (64 * 0)%nat with 0%nat. rewrite take_0, app_nil_r.
    split; [f_equal; lia |]. split; [lia |]. split; [exact Hb |].
    split; [lia |]. split; reflexivity.
Qed.

Lemma tail_loop_buffered m (data : list byte) this k r :
  buffered m this -> 0 <= k -> 0 <= r -> k + r = Uint8Array.length data ->
  Uint8Array.length m mod 64 + r < 64 ->
  exists this3,
    l_this (tail_loop (Z.to_nat r) data (mkLocals this k r)) = this3
    /\ buffered (m ++ drop (Z.to_nat k) data) this3
    /\ _finished this3 = _finished this
    /\ _bytesHashed this3 = _bytesHashed this.
Proof.
  intros Hb Hk Hr Hsum Hlt64. pose proof Hb as (Hbl & Hst & Hbuf & Hlb & Hlt).
  assert (HL : 0 <= Uint8Array.length m mod 64 < 64) by zdiv.
  unfold Uint8Array.length in *.
  rewrite tail_loop_copied; cbn [l_this l_dataLength l_dataPos]; try lia.
  unfold copied. cbn [l_this l_dataLength l_dataPos].
  assert (Hlen : length (drop (Z.to_nat k) data) = Z.to_nat r) by (rewrite length_drop; lia).
  rewrite (take_ge (drop (Z.to_nat k) data)) by lia.
  eexists. split; [reflexivity |]. split; [| split].
  - pose proof (buffered_copy m (drop (Z.to_nat k) data) this Hb) as Hf.
    unfold Uint8Array.length in Hf. rewrite Hlen in Hf.
    specialize (Hf ltac:(lia)). exact Hf.
  - destruct this as [v w b bl bh f]. reflexivity.
  - destruct this as [v w b bl bh f]. reflexivity.
Qed.

(** [update(data)] on a hasher that has absorbed [m] returns, and leaves a
    hasher that has absorbed [m ++ data]. *)
Lemma update_absorbed m data this :
  absorbed m this ->
  exists this', update_all data this = (Ok tt, this') /\ absorbed (m ++ data) this'.
Proof.
  intros (Hfin & Hbh & Hb).
  unfold update_all, update. rewrite Hfin.
  set (this0 := with_bytesHashed (_bytesHashed this + Uint8Array.length data) this).
  assert (Hb0 : buffered m this0) by (destruct this; exact Hb).
  destruct (fill_buffer_buffered m data this0 Hb0)
    as (k & this1 & Hk & -> & Hb1 & Hor1 & Hf1 & Hbh1).
  assert (Hlk : Uint8Array.length (take k data) = Z.of_nat k).
  { unfold Uint8Array.length in *. rewrite length_take. lia. }
  assert (Hor : Uint8Array.length data - Z.of_nat k = 0
                \/ Uint8Array.length (m ++ take k data) mod 64 = 0).
  { destruct Hor1; [left; lia | right; assumption]. }
  destruct (hash_direct_buffered (m ++ take k data) data this1 (Z.of_nat k)
              (Uint8Array.length data - Z.of_nat k) Hb1
              ltac:(lia) ltac:(lia) ltac:(lia) Hor)
    as (q & this2 & -> & Hq & Hb2 & Hlt2 & Hf2 & Hbh2).
  cbn [l_dataLength].
  destruct (tail_loop_buffered _ data this2 (Z.of_nat k + 64 * Z.of_nat q)
              (Uint8Array.length data - Z.of_nat k - 64 * Z.of_nat q) Hb2
              ltac:(lia) ltac:(lia) ltac:(lia) Hlt2)
    as (this3 & -> & Hb3 & Hf3 & Hbh3).
  exists this3. split; [reflexivity |].
  assert (Hmsg : (m ++ take k data) ++ take (64 * q) (drop (Z.to_nat (Z.of_nat k)) data)
                 ++ drop (Z.to_nat (Z.of_nat k + 64 * Z.of_nat q)) data = m ++ data).
  { rewrite <- app_assoc. f_equal. rewrite Nat2Z.id.
    replace (Z.to_nat (Z.of_nat k + 64 * Z.of_nat q)) with (k + 64 * q)%nat by lia.
    rewrite <- drop_drop, take_drop, take_drop. reflexivity. }
  rewrite <- app_assoc, Hmsg in Hb3.
  split; [| split].
  - rewrite Hf3, Hf2, Hf1. destruct this; exact Hfin.
  - rewrite Hbh3, Hbh2, Hbh1. rewrite length_app_Z, <- Hbh. destruct this; reflexivity.
  - exact Hb3.
Qed.

(** ** Writes that extend a prefix

    An array whose first bytes are [pre], and which is [orig] behind them,
    is [take (length orig) (pre ++ drop (length pre) orig)]; a write at
    index [length pre] extends [pre], or is dropped when [orig] is too
    short. *)

Lemma Uint8Array_set_extend (orig pre : list byte) i x :
  i = Z.of_nat (length pre) ->
  Uint8Array.set (take (length orig) (pre ++ drop (length pre) orig)) i x
  = take (length orig) ((pre ++ [byte_of_Z x]) ++ drop (length (pre ++ [byte_of_Z x])) orig).
Proof.
  intros ->. unfold Uint8Array.set.
  destruct (Z.of_nat (length pre) <? 0) eqn:E; [apply Z.ltb_lt in E; lia |].
  rewrite Nat2Z.id, length_app. cbn [length].
  destruct (decide (length pre < length orig)%nat) as [Hlt | Hge].
  - rewrite !take_ge by (rewrite !length_app, ?length_drop; cbn [length]; lia).
    destruct (lookup_lt_is_Some_2 orig (length pre) Hlt) as [y Hy].
    rewrite (drop_S orig y _ Hy).
    rewrite insert_app_r_alt by lia. rewrite Nat.sub_diag. cbn [insert list_insert].
    rewrite <- app_assoc. cbn [app]. do 3 f_equal. lia.
  - rewrite !drop_ge by lia. rewrite !app_nil_r.
    rewrite list_insert_ge by (rewrite length_take; lia).
    now rewrite take_app_le by lia.
Qed.

Lemma shr_div x c : 0 <= c < 32 -> shr x c = ToUint32 x / 2 ^ c.
Proof.
  intros Hc. unfold shr. replace (ToUint32 c mod 32) with c.
  - apply Z.shiftr_div_pow2. lia.
  - unfold ToUint32. rewrite (Z.mod_small c (2 ^ 32)) by lia. now rewrite Z.mod_small by lia.
Qed.

Lemma writeUint32BE_extend (orig pre : list byte) offset value :
  offset = Z.of_nat (length pre) ->
  writeUint32BE value (take (length orig) (pre ++ drop (length pre) orig)) offset
  = take (length orig) ((pre ++ BE32 value) ++ drop (length (pre ++ BE32 value)) orig).
Proof.
  intros ->. unfold writeUint32BE. cbv zeta.
  rewrite !shr_div by lia. change (2 ^ 0) with 1. rewrite Z.div_1_r.
  rewrite (Uint8Array_set_extend orig pre) by lia.
  rewrite (Uint8Array_set_extend orig (pre ++ [_])) by (rewrite length_app; cbn [length]; lia).
  rewrite (Uint8Array_set_extend orig ((pre ++ [_]) ++ [_]))
    by (rewrite !length_app; cbn [length]; lia).
  rewrite (Uint8Array_set_extend orig (((pre ++ [_]) ++ [_]) ++ [_]))
    by (rewrite !length_app; cbn [length]; lia).
  unfold BE32. rewrite <- !app_assoc. reflexivity.
Qed.

Lemma zero_fill_extend (orig pre : list byte) n i :
  i = Z.of_nat (length pre) ->
  for_range n i (fun i b => Uint8Array.set b i 0)
    (take (length orig) (pre ++ drop (length pre) orig))
  = take (length orig) ((pre ++ replicate n x00)
                        ++ drop (length (pre ++ replicate n x00)) orig).
Proof.
  revert pre i. induction n as [| n IH]; intros pre i ->; cbn [for_range replicate].
  - now rewrite app_nil_r.
  - rewrite (Uint8Array_set_extend orig pre) by lia.
    rewrite IH by (rewrite length_app; cbn [length]; lia).
    change (byte_of_Z 0) with x00. rewrite <- !app_assoc. reflexivity.
Qed.

Lemma BE32_congr x y : ToUint32 x = ToUint32 y -> BE32 x = BE32 y.
Proof. intros H. unfold BE32. now rewrite H. Qed.

Lemma BE32_length x : length (BE32 x) = 4%nat.
Proof. reflexivity. Qed.

Lemma bitLenHi_BE32 bh : 0 <= bh -> BE32 (div_or0 bh 0x20000000) = BE32 (8 * bh / 2 ^ 32).
Proof.
  intros H. apply BE32_congr. unfold div_or0. rewrite ToUint32_ToInt32.
  rewrite Z.quot_div_nonneg by lia. f_equal. zdiv.
Qed.

Lemma bitLenLo_BE32 bh : BE32 (shl bh 3) = BE32 (8 * bh).
Proof.
  apply BE32_congr. unfold shl. rewrite ToUint32_ToInt32.
  change (ToUint32 3 mod 32) with 3. rewrite Z.shiftl_mul_pow2 by lia.
  destruct (ToInt32_decomp bh) as [k ->]. unfold ToUint32.
  replace ((bh + k * 2 ^ 32) * 2 ^ 3) with (8 * bh + (k * 8) * 2 ^ 32) by lia.
  now rewrite Z.mod_add by lia.
Qed.

Lemma padding_length left bh pl :
  0 <= left -> left + 9 <= pl -> length (padding left bh pl) = Z.to_nat (pl - left).
Proof.
  intros H1 H2. unfold padding. rewrite !length_app, length_replicate, !BE32_length.
  cbn [length]. lia.
Qed.

(** The buffer after the padding of [finish]. *)
Lemma pad_buffer_padding (buffer : list byte) left bh pl :
  0 <= left -> left + 9 <= pl -> pl <= Z.of_nat (length buffer) -> 0 <= bh ->
  pad_buffer buffer left bh pl
  = take (Z.to_nat left) buffer ++ padding left bh pl ++ drop (Z.to_nat pl) buffer.
Proof.
  intros Hl Hpl Hb Hbh. unfold pad_buffer, for_loop. cbv zeta.
  set (pre := take (Z.to_nat left) buffer).
  assert (Hpre : length pre = Z.to_nat left) by (subst pre; rewrite length_take; lia).
  assert (Hstart : buffer = take (length buffer) (pre ++ drop (length pre) buffer)).
  { subst pre. rewrite Hpre, take_drop. now rewrite take_ge by lia. }
  rewrite Hstart at 1.
  rewrite (Uint8Array_set_extend buffer pre) by lia.
  rewrite (zero_fill_extend buffer (pre ++ [_])) by (rewrite length_app; cbn [length]; lia).
  rewrite (writeUint32BE_extend buffer ((pre ++ [_]) ++ replicate _ _))
    by (rewrite !length_app, length_replicate; cbn [length]; lia).
  rewrite (writeUint32BE_extend buffer (((pre ++ [_]) ++ replicate _ _) ++ BE32 _))
    by (rewrite !length_app, length_replicate, BE32_length; cbn [length]; lia).
  rewrite bitLenHi_BE32, bitLenLo_BE32 by lia.
  change (byte_of_Z 128) with x80.
  replace (Z.to_nat (pl - 8 - (left + 1))) with (Z.to_nat (pl - 9 - left)) by lia.
  rewrite !length_app, length_replicate, !BE32_length, Hpre. cbn [length].
  replace (Z.to_nat left + 1 + Z.to_nat (pl - 9 - left) + 4 + 4)%nat with (Z.to_nat pl) by lia.
  rewrite take_ge.
  - unfold padding. rewrite <- !app_assoc. reflexivity.
  - rewrite !length_app, length_replicate, !BE32_length, Hpre, length_drop. cbn [length]. lia.
Qed.

(** What [finish] copies into [out]: the serialized state, as far as [out]
    has room. *)
Lemma write_state_serialize v (out : list byte) :
  write_state v out = take (length out) (serialize v ++ drop 20 out).
Proof.
  unfold write_state, for_loop.
  change (Z.to_nat (digestLength / 4 - 0)) with 5%nat. cbn [for_range].
  assert (Hstart : out = take (length out) ([] ++ drop (length (@nil byte)) out)).
  { cbn [length app]. rewrite drop_0. now rewrite take_ge by lia. }
  rewrite Hstart at 1.
  rewrite (writeUint32BE_extend out []) by reflexivity.
  rewrite (writeUint32BE_extend out ([] ++ BE32 _)) by reflexivity.
  rewrite (writeUint32BE_extend out (([] ++ BE32 _) ++ BE32 _)) by reflexivity.
  rewrite (writeUint32BE_extend out ((([] ++ BE32 _) ++ BE32 _) ++ BE32 _)) by reflexivity.
  rewrite (writeUint32BE_extend out (((([] ++ BE32 _) ++ BE32 _) ++ BE32 _) ++ BE32 _))
    by reflexivity.
  unfold serialize. rewrite <- !app_assoc. reflexivity.
Qed.

Lemma serialize_length v : length (serialize v) = 20%nat.
Proof. reflexivity. Qed.

(** ** [finish] *)

Lemma padLength_of_mod bh :
  0 <= bh -> padLength_of bh = if bh mod 64 <? 56 then 64 else 128.
Proof. intros H. unfold padLength_of, rem. now rewrite Z.rem_mod_nonneg by lia. Qed.

Lemma padLength_of_cases bh : padLength_of bh = 64 \/ padLength_of bh = 128.
Proof. unfold padLength_of. destruct (rem bh 64 <? 56); auto. Qed.

(** The first [finish]: the buffer is padded, the engine runs over the
    padded 64 or 128 bytes, and the state words are copied into [out]. *)
Lemma finish_unfinished out this :
  _finished this = false ->
  length (_buffer this) = 128%nat -> length (_temp this) = 80%nat ->
  0 <= _bufferLength this < 64 -> _bufferLength this = _bytesHashed this mod 64 ->
  0 <= _bytesHashed this ->
  exists w', length w' = 80%nat /\
    finish out this
    = (Ok (write_state
             (absorb (Z.to_nat (padLength_of (_bytesHashed this) / 64)) (_state this)
                (take (Z.to_nat (_bufferLength this)) (_buffer this)
                 ++ padding (_bufferLength this) (_bytesHashed this)
                      (padLength_of (_bytesHashed this)))) out),
       mkSHA1
         (absorb (Z.to_nat (padLength_of (_bytesHashed this) / 64)) (_state this)
            (take (Z.to_nat (_bufferLength this)) (_buffer this)
             ++ padding (_bufferLength this) (_bytesHashed this)
                  (padLength_of (_bytesHashed this))))
         w'
         (take (Z.to_nat (_bufferLength this)) (_buffer this)
          ++ padding (_bufferLength this) (_bytesHashed this) (padLength_of (_bytesHashed this))
          ++ drop (Z.to_nat (padLength_of (_bytesHashed this))) (_buffer this))
         (_bufferLength this) (_bytesHashed this) true).
Proof.
  intros Hfin Hlb Hlt Hbl Hmod Hbh.
  unfold finish. rewrite Hfin. cbn [negb].
  set (pl := padLength_of (_bytesHashed this)).
  assert (Hpl : _bufferLength this + 9 <= pl /\ (pl = 64 \/ pl = 128)).
  { subst pl. rewrite padLength_of_mod by lia. rewrite <- Hmod.
    destruct (_bufferLength this <? 56) eqn:E; [apply Z.ltb_lt in E | apply Z.ltb_ge in E]; lia. }
  destruct Hpl as [Hpl1 Hpl2].
  rewrite pad_buffer_padding by lia.
  set (pre := take (Z.to_nat (_bufferLength this)) (_buffer this)).
  set (pad := padding (_bufferLength this) (_bytesHashed this) pl).
  assert (Hpre : length pre = Z.to_nat (_bufferLength this)) by (subst pre; rewrite length_take; lia).
  assert (Hpad : length pad = Z.to_nat (pl - _bufferLength this)) by (apply padding_length; lia).
  destruct (hashBlocks_absorb (_temp this) (_state this)
              (pre ++ pad ++ drop (Z.to_nat pl) (_buffer this)) 0 pl) as [w' [Hw' Heq]];
    try lia.
  { rewrite !length_app, length_drop. lia. }
  rewrite Heq. clear Heq. change (Z.to_nat 0) with 0%nat. rewrite drop_0.
  assert (Habs : absorb (Z.to_nat (pl / 64)) (_state this)
                   (pre ++ pad ++ drop (Z.to_nat pl) (_buffer this))
                 = absorb (Z.to_nat (pl / 64)) (_state this) (pre ++ pad)).
  { rewrite app_assoc. apply absorb_app_l. rewrite length_app.
    destruct Hpl2 as [-> | ->]; [change (Z.to_nat (64 / 64)) with 1%nat
                                | change (Z.to_nat (128 / 64)) with 2%nat]; lia. }
  rewrite Habs. exists w'. split; [exact Hw' |].
  destruct this as [v w b bl bh f]. reflexivity.
Qed.

Lemma write_state_digest v :
  write_state v (Uint8Array.make (Z.to_nat digestLength)) = serialize v.
Proof.
  rewrite write_state_serialize. change (Z.to_nat digestLength) with 20%nat.
  unfold Uint8Array.make. rewrite length_replicate.
  rewrite take_app_length'; [reflexivity |]. now rewrite serialize_length.
Qed.

Lemma padded_length m :
  Uint8Array.length (padded m)
  = 64 * (Uint8Array.length m / 64) + padLength_of (Uint8Array.length m).
Proof.
  unfold padded. rewrite length_app_Z. unfold Uint8Array.length at 2.
  assert (H0 : 0 <= Uint8Array.length m) by (unfold Uint8Array.length; lia).
  assert (HL : 0 <= Uint8Array.length m mod 64 < 64) by zdiv.
  assert (Hpl : Uint8Array.length m mod 64 + 9 <= padLength_of (Uint8Array.length m)).
  { rewrite padLength_of_mod by lia.
    destruct (Uint8Array.length m mod 64 <? 56) eqn:E;
      [apply Z.ltb_lt in E | apply Z.ltb_ge in E]; lia. }
  rewrite padding_length by lia. zdiv.
Qed.

(** After [m], [digest] returns the digest of [m]. *)
Lemma digest_absorbed m this :
  absorbed m this ->
  exists this', digest this = (Ok (SHA1_digest m), this') /\ _finished this' = true.
Proof.
  intros (Hfin & Hbh & Hbl & Hst & Hbuf & Hlb & Hlt).
  assert (H0 : 0 <= Uint8Array.length m) by (unfold Uint8Array.length; lia).
  assert (HL : 0 <= Uint8Array.length m mod 64 < 64) by zdiv.
  assert (HQ : 0 <= 64 * (Uint8Array.length m / 64) <= Uint8Array.length m) by zdiv.
  assert (Hmod : _bufferLength this = _bytesHashed this mod 64) by (now rewrite Hbl, Hbh).
  destruct (finish_unfinished (Uint8Array.make (Z.to_nat digestLength)) this
              Hfin Hlb Hlt ltac:(lia) Hmod ltac:(lia)) as [w' [Hw' Heq]].
  unfold digest. rewrite Heq. clear Heq.
  match goal with |- exists _, (_, ?R) = _ /\ _ => exists R end.
  split; [| reflexivity].
  rewrite write_state_digest. apply (f_equal (fun d => (Ok (serialize d), _))).
  unfold SHA1_digest.
  rewrite padded_length.
  set (pl := padLength_of (Uint8Array.length m)).
  assert (Hpl : (64 * (Uint8Array.length m / 64) + pl) / 64
                = Uint8Array.length m / 64 + pl / 64 /\ 0 <= pl / 64).
  { destruct (padLength_of_cases (Uint8Array.length m)) as [E | E]; fold pl in E; rewrite E.
    - change (64 / 64) with 1. zdiv.
    - change (128 / 64) with 2. zdiv. }
  destruct Hpl as [Hpl Hpl0]. rewrite Hpl.
  assert (HQ0 : 0 <= Uint8Array.length m / 64) by zdiv.
  rewrite Z2Nat.inj_add by assumption.
  rewrite absorb_add. unfold padded. fold pl.
  rewrite (absorb_app_l _ init_state m) by (unfold Uint8Array.length in *; lia).
  rewrite (drop_app_le m) by (unfold Uint8Array.length in *; lia).
  rewrite Hbh, Hbl, Hst, Hbuf.
  replace (64 * Z.to_nat (Uint8Array.length m / 64))%nat
    with (Z.to_nat (64 * (Uint8Array.length m / 64))) by lia.
  reflexivity.
Qed.

(** ** The counters of [update], for any data and length *)

Lemma same_frame_refl this : same_frame this this.
Proof. unfold same_frame. auto. Qed.

Lemma same_frame_trans a b c : same_frame a b -> same_frame b c -> same_frame a c.
Proof.
  unfold same_frame. intros (H1 & H2 & H3 & H4 & H5) (K1 & K2 & K3 & K4 & K5).
  repeat split; congruence.
Qed.

Lemma copy_byte_frame data l : same_frame (l_this l) (l_this (copy_byte data l)).
Proof.
  destruct l as [[v w b bl bh f] dp dl]. unfold same_frame, copy_byte. cbn.
  rewrite Uint8Array_length_set. auto.
Qed.

Lemma tail_loop_counters fuel data l :
  0 <= l_dataLength l -> (Z.to_nat (l_dataLength l) <= fuel)%nat ->
  same_frame (l_this l) (l_this (tail_loop fuel data l))
  /\ _bufferLength (l_this (tail_loop fuel data l)) = _bufferLength (l_this l) + l_dataLength l
  /\ l_dataLength (tail_loop fuel data l) = 0.
Proof.
  revert l. induction fuel as [| fuel IH]; intros l Hdl Hfuel; cbn [tail_loop].
  - split; [apply same_frame_refl | lia].
  - destruct (0 <? l_dataLength l) eqn:E.
    + apply Z.ltb_lt in E.
      destruct (IH (copy_byte data l)) as (H1 & H2 & H3).
      { destruct l as [[v w b bl bh f] dp dl]. cbn in *. lia. }
      { destruct l as [[v w b bl bh f] dp dl]. cbn in *. lia. }
      split; [| split].
      * eapply same_frame_trans; [apply copy_byte_frame | exact H1].
      * rewrite H2. destruct l as [[v w b bl bh f] dp dl]. cbn. lia.
      * exact H3.
    + apply Z.ltb_ge in E. split; [apply same_frame_refl | lia].
Qed.

Lemma fill_loop_counters fuel data l :
  0 <= l_dataLength l -> (Z.to_nat (l_dataLength l) <= fuel)%nat ->
  _bufferLength (l_this l) <= 64 ->
  same_frame (l_this l) (l_this (fill_loop fuel data l))
  /\ _bufferLength (l_this (fill_loop fuel data l))
     = _bufferLength (l_this l) + Z.min (64 - _bufferLength (l_this l)) (l_dataLength l)
  /\ l_dataLength (fill_loop fuel data l)
     = l_dataLength l - Z.min (64 - _bufferLength (l_this l)) (l_dataLength l).
Proof.
  revert l. induction fuel as [| fuel IH]; intros l Hdl Hfuel Hbl; cbn [fill_loop].
  - split; [apply same_frame_refl | lia].
  - unfold blockSize, BLOCK_SIZE.
    destruct (_bufferLength (l_this l) <? 64) eqn:E1; cbn [andb];
      [destruct (0 <? l_dataLength l) eqn:E2 |].
    + apply Z.ltb_lt in E1, E2.
      destruct (IH (copy_byte data l)) as (H1 & H2 & H3).
      { destruct l as [[v w b bl bh f] dp dl]. cbn in *. lia. }
      { destruct l as [[v w b bl bh f] dp dl]. cbn in *. lia. }
      { destruct l as [[v w b bl bh f] dp dl]. cbn in *. lia. }
      split; [| split].
      * eapply same_frame_trans; [apply copy_byte_frame | exact H1].
      * rewrite H2. destruct l as [[v w b bl bh f] dp dl]. cbn. lia.
      * rewrite H3. destruct l as [[v w b bl bh f] dp dl]. cbn. lia.
    + apply Z.ltb_ge in E2. split; [apply same_frame_refl | lia].
    + apply Z.ltb_ge in E1. split; [apply same_frame_refl | lia].
Qed.

Lemma hashBlocks_loop_lengths fuel w v p pos len :
  length (fst (fst (hashBlocks_loop fuel w v p pos len))) = length w
  /\ length (snd (fst (hashBlocks_loop fuel w v p pos len))) = length v.
Proof.
  revert w v pos len. induction fuel as [| fuel IH]; intros w v pos len; cbn [hashBlocks_loop].
  - auto.
  - destruct (64 <=? len); [| auto].
    pose proof (hashBlock_temp_length w v p pos) as Hw.
    pose proof (hashBlock_state_length w v p pos) as Hv.
    destruct (hashBlock w v p pos) as [w1 v1]. cbn [fst snd] in Hw, Hv.
    rewrite <- Hw, <- Hv. apply IH.
Qed.

Lemma hashBlocks_lengths w v p pos len :
  length (fst (fst (hashBlocks w v p pos len))) = length w
  /\ length (snd (fst (hashBlocks w v p pos len))) = length v.
Proof. apply hashBlocks_loop_lengths. Qed.

Lemma update_invariant data dataLength this :
  invariant this -> 0 <= dataLength -> invariant (snd (update data dataLength this)).
Proof.
  intros Hinv Hn. pose proof Hinv as (Hls & Hlt & Hlb & Hbl & Hbh & Hmod). unfold update.
  destruct (_finished this) eqn:Hfin; [exact Hinv |].
  cbn [snd].
  set (this0 := with_bytesHashed (_bytesHashed this + dataLength) this).
  (* the first [if] *)
  assert (H1 : exists this1 dp1 dl1,
             fill_buffer data (mkLocals this0 0 dataLength) = mkLocals this1 dp1 dl1
             /\ length (_state this1) = 5%nat /\ length (_temp this1) = 80%nat
             /\ length (_buffer this1) = 128%nat
             /\ _bytesHashed this1 = _bytesHashed this + dataLength
             /\ 0 <= _bufferLength this1 < 64 /\ 0 <= dl1
             /\ (_bufferLength this1 = 0 \/ dl1 = 0)
             /\ (_bufferLength this1 + dl1) mod 64 = (_bytesHashed this + dataLength) mod 64).
  { unfold fill_buffer. cbn [l_this l_dataLength l_dataPos].
    replace (_bufferLength this0) with (_bufferLength this) by (destruct this; reflexivity).
    destruct (0 <? _bufferLength this) eqn:E.
    - apply Z.ltb_lt in E.
      destruct (fill_loop_counters (Z.to_nat dataLength) data (mkLocals this0 0 dataLength))
        as ((F1 & F2 & F3 & F4 & F5) & C1 & C2); cbn [l_this l_dataLength l_dataPos];
        try (destruct this; cbn in *; lia).
      cbn [l_this l_dataLength l_dataPos] in *.
      replace (_bufferLength this0) with (_bufferLength this) in * by (destruct this; reflexivity).
      set (l1 := fill_loop (Z.to_nat dataLength) data (mkLocals this0 0 dataLength)) in *.
      unfold blockSize, BLOCK_SIZE.
      destruct (_bufferLength (l_this l1) =? 64) eqn:E2.
      + apply Z.eqb_eq in E2.
        destruct (hashBlocks_lengths (_temp (l_this l1)) (_state (l_this l1))
                    (_buffer (l_this l1)) 0 64) as [Lw Lv].
        destruct (hashBlocks (_temp (l_this l1)) (_state (l_this l1)) (_buffer (l_this l1)) 0 64)
          as [[w' v'] pos'].
        cbn [fst snd] in Lw, Lv.
        eexists _, _, _. split; [reflexivity |].
        unfold with_bufferLength, with_state, with_temp.
        cbn [_state _temp _buffer _bufferLength _bytesHashed _finished].
        rewrite Lv, Lw, F1, F2, F3, F4.
        replace (_state this0) with (_state this) by (destruct this; reflexivity).
        replace (_temp this0) with (_temp this) by (destruct this; reflexivity).
        replace (_buffer this0) with (_buffer this) by (destruct this; reflexivity).
        replace (_bytesHashed this0) with (_bytesHashed this + dataLength)
          by (destruct this; reflexivity).
        repeat (split; [first [assumption | reflexivity | lia] |]).
        rewrite C2, Hmod.
        replace (0 + (dataLength - (64 - _bytesHashed this mod 64) `min` dataLength))
          with (_bytesHashed this mod 64 + dataLength - 64) by lia.
        rewrite Hmod in E. zdiv.
      + apply Z.eqb_neq in E2.
        exists (l_this l1), (l_dataPos l1), (l_dataLength l1).
        split; [destruct l1; reflexivity |].
        rewrite F1, F2, F3, F4.
        replace (_state this0) with (_state this) by (destruct this; reflexivity).
        replace (_temp this0) with (_temp this) by (destruct this; reflexivity).
        replace (_buffer this0) with (_buffer this) by (destruct this; reflexivity).
        replace (_bytesHashed this0) with (_bytesHashed this + dataLength)
          by (destruct this; reflexivity).
        repeat (split; [first [assumption | reflexivity | lia] |]).
        rewrite C1, C2.
        replace (_bufferLength this + (64 - _bufferLength this) `min` dataLength
                 + (dataLength - (64 - _bufferLength this) `min` dataLength))
          with (_bufferLength this + dataLength) by lia.
        rewrite Hmod. zdiv.
    - apply Z.ltb_ge in E. exists this0, 0, dataLength. split; [reflexivity |].
      replace (_state this0) with (_state this) by (destruct this; reflexivity).
      replace (_temp this0) with (_temp this) by (destruct this; reflexivity).
      replace (_buffer this0) with (_buffer this) by (destruct this; reflexivity).
      replace (_bytesHashed this0) with (_bytesHashed this + dataLength)
        by (destruct this; reflexivity).
      replace (_bufferLength this0) with (_bufferLength this) by (destruct this; reflexivity).
      repeat (split; [first [assumption | reflexivity | lia] |]).
      assert (_bufferLength this = 0) as -> by lia.
      assert (Hm0 : _bytesHashed this mod 64 = 0) by lia. zdiv. }
  destruct H1 as (this1 & dp1 & dl1 & -> & Ls1 & Lt1 & Lb1 & Bh1 & Bl1 & Dl1 & Or1 & Mod1).
  (* the second [if] *)
  assert (H2 : exists this2 dp2 dl2,
             hash_direct data (mkLocals this1 dp1 dl1) = mkLocals this2 dp2 dl2
             /\ length (_state this2) = 5%nat /\ length (_temp this2) = 80%nat
             /\ length (_buffer this2) = 128%nat
             /\ _bytesHashed this2 = _bytesHashed this + dataLength
             /\ 0 <= dl2 /\ 0 <= _bufferLength this2 /\ _bufferLength this2 + dl2 < 64
             /\ (_bufferLength this2 + dl2) mod 64 = (_bytesHashed this + dataLength) mod 64).
  { unfold hash_direct. cbn [l_this l_dataLength l_dataPos]. unfold blockSize, BLOCK_SIZE.
    destruct (64 <=? dl1) eqn:E.
    - apply Z.leb_le in E.
      destruct (hashBlocks_lengths (_temp this1) (_state this1) data dp1 dl1) as [Lw Lv].
      destruct (hashBlocks (_temp this1) (_state this1) data dp1 dl1) as [[w' v'] pos'].
      cbn [fst snd] in Lw, Lv.
      eexists _, _, _. split; [reflexivity |].
      unfold with_state, with_temp.
      cbn [_state _temp _buffer _bufferLength _bytesHashed _finished].
      unfold rem. rewrite Z.rem_mod_nonneg by lia.
      assert (_bufferLength this1 = 0) as Hz by lia. rewrite Hz in *.
      rewrite Lv, Lw.
      repeat (split; [first [assumption | reflexivity | lia | zdiv] |]).
      rewrite <- Mod1. zdiv.
    - apply Z.leb_gt in E. exists this1, dp1, dl1. split; [reflexivity |].
      repeat (split; [first [assumption | reflexivity | lia] |]). exact Mod1. }
  destruct H2 as (this2 & dp2 & dl2 & -> & Ls2 & Lt2 & Lb2 & Bh2 & Dl2 & Bl2 & Lt64 & Mod2).
  cbn [l_dataLength].
  destruct (tail_loop_counters (Z.to_nat dl2) data (mkLocals this2 dp2 dl2))
    as ((F1 & F2 & F3 & F4 & F5) & C1 & C2); cbn [l_this l_dataLength l_dataPos]; try lia.
  cbn [l_this l_dataLength l_dataPos] in *.
  unfold invariant. rewrite F1, F2, F3, F4, C1.
  repeat (split; [first [assumption | reflexivity | lia] |]).
  rewrite Bh2, <- Mod2. rewrite Z.mod_small; lia.
Qed.

(** ** Every reachable hasher satisfies the invariant *)

Lemma writeUint32BE_length value out offset :
  length (writeUint32BE value out offset) = length out.
Proof. unfold writeUint32BE. cbv zeta. now rewrite !Uint8Array_length_set. Qed.

Lemma pad_buffer_length buffer left bh pl :
  length (pad_buffer buffer left bh pl) = length buffer.
Proof.
  unfold pad_buffer, for_loop. cbv zeta. rewrite !writeUint32BE_length.
  match goal with
  | |- length (for_range ?n ?i ?f ?s) = _ =>
      apply (for_range_inv (fun b => length b = length buffer) n i f s)
  end.
  - apply Uint8Array_length_set.
  - intros j b Hb. now rewrite Uint8Array_length_set.
Qed.

Lemma new_SHA1_invariant : invariant new_SHA1.
Proof. unfold invariant. cbn. repeat split; reflexivity || lia. Qed.

Lemma initState_length this : length (_state (_initState this)) = length (_state this).
Proof.
  unfold _initState, with_state. cbv zeta. cbn [_state].
  now rewrite !Int32Array_length_set.
Qed.

Lemma reset_invariant this : invariant this -> invariant (snd (reset this)).
Proof.
  intros (Hls & Hlt & Hlb & _). unfold reset, invariant. cbn [snd].
  unfold with_finished, with_bytesHashed, with_bufferLength.
  cbn [_state _temp _buffer _bufferLength _bytesHashed _finished].
  rewrite initState_length.
  replace (_temp (_initState this)) with (_temp this) by (destruct this; reflexivity).
  replace (_buffer (_initState this)) with (_buffer this) by (destruct this; reflexivity).
  repeat (split; [first [assumption | reflexivity | lia] |]). reflexivity.
Qed.

Lemma clean_invariant this : invariant this -> invariant (snd (clean this)).
Proof.
  intros (Hls & Hlt & Hlb & Hrest). unfold clean. apply reset_invariant.
  unfold invariant, with_temp, with_buffer, wipe.
  cbn [_state _temp _buffer _bufferLength _bytesHashed _finished].
  rewrite !length_replicate. auto.
Qed.

Lemma finish_invariant out this : invariant this -> invariant (snd (finish out this)).
Proof.
  intros Hinv. pose proof Hinv as (Hls & Hlt & Hlb & Hbl & Hbh & Hmod).
  unfold finish. cbn [snd]. destruct (_finished this); cbn [negb]; [exact Hinv |].
  match goal with
  | |- context [hashBlocks ?w ?v ?p ?pos ?len] =>
      destruct (hashBlocks_lengths w v p pos len) as [Lw Lv];
      destruct (hashBlocks w v p pos len) as [[w' v'] pos']
  end.
  cbn [fst snd] in Lw, Lv.
  unfold invariant, with_finished, with_state, with_temp, with_buffer.
  cbn [_state _temp _buffer _bufferLength _bytesHashed _finished].
  rewrite Lw, Lv, pad_buffer_length. auto 10.
Qed.

Lemma saveState_unchanged this : snd (saveState this) = this.
Proof. unfold saveState. destruct (_finished this); reflexivity. Qed.

Lemma typed_set_same_length {A : Type} (target source : list A) :
  length source = length target -> typed_set target source = Some source.
Proof.
  intros H. unfold typed_set. rewrite H, Nat.leb_refl. rewrite <- H, drop_ge by lia.
  now rewrite app_nil_r.
Qed.

Lemma restoreState_invariant s this that :
  invariant this -> invariant that -> snapshot_of that s ->
  restoreState s this
  = (Ok tt, mkSHA1 (state s) (_temp this) (default (_buffer this) (buffer s))
                   (bufferLength s) (bytesHashed s) false)
  /\ invariant (snd (restoreState s this)).
Proof.
  intros (Hls & Hlt & Hlb & Hbl & Hbh & Hmod) (Tls & Tlt & Tlb & Tbl & Tbh & Tmod) Hs.
  assert (Hshape : length (state s) = 5%nat
                   /\ match buffer s with Some b => length b = 128%nat | None => True end
                   /\ 0 <= bufferLength s < 64 /\ 0 <= bytesHashed s
                   /\ bufferLength s = bytesHashed s mod 64).
  { unfold snapshot_of, saveState in Hs. destruct (_finished that).
    - destruct Hs as [Hs | (s0 & Hs & _)]; discriminate Hs.
    - cbn [fst] in Hs. destruct Hs as [Hs | (s0 & Hs & ->)]; injection Hs as <-.
      + cbn [state buffer bufferLength bytesHashed].
        destruct (0 <? _bufferLength that); auto 10.
      + unfold cleanSavedState, wipe. cbn [state buffer bufferLength bytesHashed].
        rewrite length_replicate.
        destruct (0 <? _bufferLength that); cbn; rewrite ?length_replicate;
          repeat (split; [first [assumption | reflexivity | lia] |]); reflexivity. }
  destruct Hshape as (Sls & Slb & Sbl & Sbh & Smod).
  assert (Heq : restoreState s this
                = (Ok tt, mkSHA1 (state s) (_temp this) (default (_buffer this) (buffer s))
                                 (bufferLength s) (bytesHashed s) false)).
  { unfold restoreState. rewrite typed_set_same_length by lia.
    destruct (buffer s) as [b |]; cbn [default].
    - unfold with_bufferLength, with_state, with_buffer, with_bytesHashed, with_finished.
      cbn [_state _temp _buffer _bufferLength _bytesHashed _finished].
      rewrite typed_set_same_length by lia. reflexivity.
    - reflexivity. }
  split; [exact Heq |]. rewrite Heq. cbn [snd]. unfold invariant.
  cbn [_state _temp _buffer _bufferLength _bytesHashed _finished].
  destruct (buffer s); cbn [default]; auto 10.
Qed.

Lemma reachable_invariant this : reachable this -> invariant this.
Proof.
  induction 1 as [| this _ IH | this _ IH | this data n _ IH Hn | this out _ IH | this _ IH
                 | this _ IH | this that s _ IH1 _ IH2 Hs].
  - apply new_SHA1_invariant.
  - now apply reset_invariant.
  - now apply clean_invariant.
  - now apply update_invariant.
  - now apply finish_invariant.
  - now apply finish_invariant.
  - now rewrite saveState_unchanged.
  - now apply (restoreState_invariant s this that).
Qed.

(** ** Hashing a whole message *)

Lemma absorbed_new : absorbed [] new_SHA1.
Proof.
  unfold absorbed, buffered. repeat (split; [reflexivity |]). reflexivity.
Qed.

Lemma init_state_words :
  init_state = ToInt32 <$> [0x67452301; 0xefcdab89; 0x98badcfe; 0x10325476; 0xc3d2e1f0].
Proof. reflexivity. Qed.

Lemma initState_words this :
  length (_state this) = 5%nat -> _state (_initState this) = init_state.
Proof.
  destruct this as [v w b bl bh f]. cbn [_state]. intros H.
  destruct v as [| a0 [| a1 [| a2 [| a3 [| a4 [| a5 v]]]]]]; try discriminate H.
  reflexivity.
Qed.

Lemma absorbed_reset this : invariant this -> absorbed [] (snd (reset this)).
Proof.
  intros (Hls & Hlt & Hlb & _). unfold absorbed, buffered, reset. cbn [snd].
  unfold with_finished, with_bytesHashed, with_bufferLength.
  cbn [_state _temp _buffer _bufferLength _bytesHashed _finished].
  rewrite (initState_words this Hls).
  replace (_temp (_initState this)) with (_temp this) by (destruct this; reflexivity).
  replace (_buffer (_initState this)) with (_buffer this) by (destruct this; reflexivity).
  repeat (split; [first [assumption | reflexivity] |]). assumption.
Qed.

Lemma update_chunks_absorbed chunks m this :
  absorbed m this ->
  exists this', update_chunks chunks this = (Ok tt, this')
                /\ absorbed (m ++ concat chunks) this'.
Proof.
  revert m this. induction chunks as [| chunk rest IH]; intros m this Ha; cbn [update_chunks concat].
  - exists this. rewrite app_nil_r. split; [reflexivity | exact Ha].
  - destruct (update_absorbed m chunk this Ha) as (this1 & Hu & Ha1).
    destruct (IH (m ++ chunk) this1 Ha1) as (this2 & Hr & Ha2).
    exists this2. unfold bind. rewrite Hu, Hr. rewrite app_assoc. split; [reflexivity | exact Ha2].
Qed.

(** [update] then [digest] on a hasher that has absorbed nothing yet. *)
Lemma update_digest m this :
  absorbed [] this ->
  fst ((call _ <- update_all m; digest) this) = Ok (SHA1_digest m).
Proof.
  intros Ha. destruct (update_absorbed [] m this Ha) as (this1 & Hu & Ha1).
  destruct (digest_absorbed m this1 Ha1) as (this2 & Hd & _).
  unfold bind. rewrite Hu, Hd. reflexivity.
Qed.

Lemma clean_returns this : fst (clean this) = Ok tt.
Proof. reflexivity. Qed.

(** [hash] returns, with the digest of its argument. *)
Lemma hash_digest data : hash data = Ok (SHA1_digest data).
Proof.
  unfold hash. cbv zeta.
  destruct (update_absorbed [] data new_SHA1 absorbed_new) as (this1 & Hu & Ha1).
  destruct (digest_absorbed data this1 Ha1) as (this2 & Hd & _).
  unfold bind. rewrite Hu, Hd. reflexivity.
Qed.

Lemma SHA1_digest_length m : length (SHA1_digest m) = 20%nat.
Proof. apply serialize_length. Qed.

(** ** Reads and writes of the state array *)

Lemma Int32Array_get_set_eq a i x :
  0 <= i < Z.of_nat (length a) -> Int32Array.get (Int32Array.set a i x) i = ToInt32 x.
Proof.
  intros H. unfold Int32Array.get, Int32Array.set.
  destruct (i <? 0) eqn:E; [apply Z.ltb_lt in E; lia |].
  rewrite list_lookup_insert_eq by lia. reflexivity.
Qed.

Lemma Int32Array_get_set_ne a i j x :
  i <> j -> Int32Array.get (Int32Array.set a i x) j = Int32Array.get a j.
Proof.
  intros H. unfold Int32Array.get, Int32Array.set.
  destruct (j <? 0) eqn:Ej; [reflexivity |]. apply Z.ltb_ge in Ej.
  destruct (i <? 0) eqn:Ei; [reflexivity |]. apply Z.ltb_ge in Ei.
  rewrite list_lookup_insert_ne by lia. reflexivity.
Qed.

Lemma finish_finished out this :
  _finished this = true -> finish out this = (Ok (write_state (_state this) out), this).
Proof. intros H. unfold finish. rewrite H. reflexivity. Qed.

Lemma finish_sets_finished out this : _finished (snd (finish out this)) = true.
Proof.
  unfold finish. cbn [snd]. destruct (_finished this) eqn:E; cbn [negb]; [exact E |].
  match goal with
  | |- context [hashBlocks ?w ?v ?p ?pos ?len] =>
      destruct (hashBlocks w v p pos len) as [[w' v'] pos']
  end.
  reflexivity.
Qed.

Lemma finish_hasher_indep out out' this : snd (finish out this) = snd (finish out' this).
Proof. reflexivity. Qed.

Lemma finish_result out this :
  fst (finish out this) = Ok (write_state (_state (snd (finish out this))) out).
Proof. reflexivity. Qed.

(** * The properties of the specification *)

(** C1. The string-level function [sha1] reproduces the known-answer
    vectors: the empty string, "Firefox vs Chrome", the 60 ASCII digits, and
    the string of the four code points U+82B1 U+6FA4 U+9999 U+83DC, whose
    UTF-8 encoding is e8 8a b1 e6 be a4 e9 a6 99 e8 8f 9c. *)
Theorem sha1_known_answers :
  sha1 [] = Ok "da39a3ee5e6b4b0d3255bfef95601890afd80709"%string
  /\ sha1 (ascii_units "Firefox vs Chrome")
     = Ok "c4e2f8af05b799135198dd4d29f37d5245a77631"%string
  /\ sha1 (ascii_units "123456789012345678901234567890123456789012345678901234567890")
     = Ok "245be30091fd392fe191f4bfcec22dcb30a03ae6"%string
  /\ TextEncoder_encode [0x82B1; 0x6FA4; 0x9999; 0x83DC]
     = [xe8; x8a; xb1; xe6; xbe; xa4; xe9; xa6; x99; xe8; x8f; x9c]
  /\ sha1 [0x82B1; 0x6FA4; 0x9999; 0x83DC]
     = Ok "421145fe4b35eaa6c0cf006afb38fae6d1d2bbae"%string.
Proof. repeat apply conj; vm_compute; reflexivity. Qed.

(** C2. Chunking independence: on a fresh hasher, one [update] per chunk
    and then [digest] returns the same 20 bytes as one [update] with the
    concatenation of the chunks and then [digest]; both return the digest of
    the whole message. *)
Theorem chunking_independence (chunks : list (list byte)) :
  fst ((call _ <- update_chunks chunks; digest) new_SHA1)
  = fst ((call _ <- update_all (concat chunks); digest) new_SHA1)
  /\ fst ((call _ <- update_all (concat chunks); digest) new_SHA1)
     = Ok (SHA1_digest (concat chunks))
  /\ length (SHA1_digest (concat chunks)) = 20%nat.
Proof.
  destruct (update_chunks_absorbed chunks [] new_SHA1 absorbed_new) as (this1 & Hu & Ha1).
  cbn [app] in Ha1.
  destruct (digest_absorbed _ this1 Ha1) as (this2 & Hd & _).
  split; [| split].
  - rewrite (update_digest _ new_SHA1 absorbed_new).
    unfold bind. rewrite Hu, Hd. reflexivity.
  - apply update_digest, absorbed_new.
  - apply SHA1_digest_length.
Qed.

(** C3. [finish] is idempotent: a second [finish] leaves the hasher as the
    first one left it, and writes into its buffer what the first call
    writes into that buffer: the serialized state words, as far as the
    buffer has room.  So does a second [digest]. *)
Theorem finish_idempotent this (out out' : list byte) :
  finish out' (snd (finish out this)) = (fst (finish out' this), snd (finish out this))
  /\ fst (finish out' this)
     = Ok (take (length out') (serialize (_state (snd (finish out this))) ++ drop 20 out'))
  /\ digest (snd (digest this)) = digest this
  /\ fst (digest this) = Ok (serialize (_state (snd (digest this)))).
Proof.
  assert (H2 : forall o o', finish o' (snd (finish o this))
                            = (fst (finish o' this), snd (finish o this))).
  { intros o o'. rewrite (finish_finished o' _ (finish_sets_finished o this)).
    rewrite (finish_result o' this), (finish_hasher_indep o' o). reflexivity. }
  split; [apply H2 |]. split; [| split].
  - rewrite (finish_result out' this), (finish_hasher_indep out' out).
    now rewrite write_state_serialize.
  - unfold digest. rewrite H2. now destruct (finish _ this).
  - unfold digest. rewrite finish_result. now rewrite write_state_digest.
Qed.

(** C4. The first [finish] on an unfinished hasher: with [left] the
    buffered length, the padded length is 64 when [left mod 64 < 56] and 128
    otherwise; the buffer keeps its [left] bytes, then holds 0x80, zeroes up
    to the length field, and the bit length as two big-endian 32-bit words,
    high then low; the engine runs over these 64 or 128 bytes; and [out]
    receives the big-endian serialization of the 5 state words (all 20
    bytes when it has room for them). *)
Theorem finish_pads this (out : list byte) :
  reachable this -> _finished this = false ->
  let left := _bufferLength this in
  let padLength := if left mod 64 <? 56 then 64 else 128 in
  let block :=
    take (Z.to_nat left) (_buffer this)
    ++ [x80] ++ replicate (Z.to_nat (padLength - 9 - left)) x00
    ++ BE32 (8 * _bytesHashed this / 2 ^ 32) ++ BE32 (8 * _bytesHashed this) in
  let padded_buffer := block ++ drop (Z.to_nat padLength) (_buffer this) in
  Uint8Array.length block = padLength
  /\ snd (finish out this)
     = mkSHA1 (snd (fst (hashBlocks (_temp this) (_state this) padded_buffer 0 padLength)))
              (fst (fst (hashBlocks (_temp this) (_state this) padded_buffer 0 padLength)))
              padded_buffer left (_bytesHashed this) true
  /\ _state (snd (finish out this)) = absorb (Z.to_nat (padLength / 64)) (_state this) block
  /\ fst (finish out this)
     = Ok (take (length out) (serialize (_state (snd (finish out this))) ++ drop 20 out))
  /\ fst (digest this) = Ok (serialize (_state (snd (finish out this)))).
Proof.
  intros Hreach Hfin.
  pose proof (reachable_invariant this Hreach) as (Hls & Hlt & Hlb & Hbl & Hbh & Hmod).
  cbv zeta.
  assert (Hpl : (if _bufferLength this mod 64 <? 56 then 64 else 128)
                = padLength_of (_bytesHashed this)).
  { rewrite padLength_of_mod by lia. rewrite Hmod at 1. now rewrite Z.mod_mod by lia. }
  rewrite Hpl. set (pl := padLength_of (_bytesHashed this)).
  assert (Hpl9 : _bufferLength this + 9 <= pl /\ (pl = 64 \/ pl = 128)).
  { subst pl. rewrite <- Hpl. rewrite (Z.mod_small (_bufferLength this)) by lia.
    destruct (_bufferLength this <? 56) eqn:E; [apply Z.ltb_lt in E | apply Z.ltb_ge in E]; lia. }
  destruct Hpl9 as [Hpl9 Hcases].
  fold (padding (_bufferLength this) (_bytesHashed this) pl).
  destruct (finish_unfinished out this Hfin Hlb Hlt Hbl Hmod Hbh) as (w' & Hw' & Heq).
  fold pl in Heq.
  assert (Hpad : snd (finish out this)
                 = with_finished true
                     (with_state (snd (fst (hashBlocks (_temp this) (_state this)
                          (pad_buffer (_buffer this) (_bufferLength this) (_bytesHashed this) pl)
                          0 pl)))
                        (with_temp (fst (fst (hashBlocks (_temp this) (_state this)
                          (pad_buffer (_buffer this) (_bufferLength this) (_bytesHashed this) pl)
                          0 pl)))
                           (with_buffer (pad_buffer (_buffer this) (_bufferLength this)
                                           (_bytesHashed this) pl) this)))).
  { unfold finish. rewrite Hfin. cbn [negb snd]. fold pl.
    now destruct (hashBlocks (_temp this) (_state this)
                    (pad_buffer (_buffer this) (_bufferLength this) (_bytesHashed this) pl) 0 pl)
      as [[w1 v1] p1]. }
  rewrite pad_buffer_padding in Hpad by lia.
  split; [| split; [| split; [| split]]].
  - rewrite length_app_Z. unfold Uint8Array.length.
    rewrite length_take, padding_length by lia. lia.
  - rewrite Hpad. rewrite <- !app_assoc. destruct this as [v w b bl bh f]. reflexivity.
  - rewrite Heq. reflexivity.
  - rewrite finish_result. now rewrite write_state_serialize.
  - unfold digest. rewrite finish_result, write_state_digest. reflexivity.
Qed.

Lemma finish_pads_witness :
  reachable (snd (update_all [x61; x62; x63] new_SHA1))
  /\ _finished (snd (update_all [x61; x62; x63] new_SHA1)) = false
  /\ fst (digest (snd (update_all [x61; x62; x63] new_SHA1)))
     = Ok (serialize (_state (snd (finish [] (snd (update_all [x61; x62; x63] new_SHA1)))))).
Proof.
  assert (Hr : reachable (snd (update_all [x61; x62; x63] new_SHA1))).
  { apply reach_update; [apply reach_new | vm_compute; discriminate]. }
  assert (Hf : _finished (snd (update_all [x61; x62; x63] new_SHA1)) = false).
  { vm_compute. reflexivity. }
  split; [exact Hr |]. split; [exact Hf |].
  destruct (finish_pads (snd (update_all [x61; x62; x63] new_SHA1)) [] Hr Hf)
    as (_ & _ & _ & _ & H).
  exact H.
Defined.

(** C5. On a hasher whose finished flag is set, [update] throws, whatever
    the data, and leaves every field of the hasher as it was. *)
Theorem update_after_finish_throws this data dataLength :
  _finished this = true ->
  update data dataLength this
  = (Throw "SHA1: can't update because hash was finished.", this).
Proof. intros H. unfold update. rewrite H. reflexivity. Qed.

Lemma update_after_finish_throws_witness :
  _finished (snd (digest new_SHA1)) = true
  /\ update [x61] 1 (snd (digest new_SHA1))
     = (Throw "SHA1: can't update because hash was finished.", snd (digest new_SHA1)).
Proof.
  assert (H : _finished (snd (digest new_SHA1)) = true) by (vm_compute; reflexivity).
  split; [exact H |]. apply (update_after_finish_throws _ [x61] 1 H).
Defined.

(** C6, as the code has it. [finish] does not check its output buffer: with
    a buffer shorter than 20 bytes it returns as usual, the hasher is
    finished, and the buffer holds the leading bytes of the digest that
    fit. *)
Theorem finish_short_out this (out : list byte) :
  (length out < 20)%nat ->
  finish out this
  = (Ok (take (length out) (serialize (_state (snd (finish out this))))), snd (finish out this))
  /\ _finished (snd (finish out this)) = true.
Proof.
  intros H. split; [| apply finish_sets_finished].
  rewrite (surjective_pairing (finish out this)) at 1.
  rewrite finish_result, write_state_serialize.
  now rewrite take_app_le by (rewrite serialize_length; lia).
Qed.

Lemma finish_short_out_witness :
  (length (replicate 19 x00) < 20)%nat
  /\ finish (replicate 19 x00) new_SHA1
     = (Ok (take (length (replicate 19 x00))
              (serialize (_state (snd (finish (replicate 19 x00) new_SHA1))))),
        snd (finish (replicate 19 x00) new_SHA1))
  /\ _finished (snd (finish (replicate 19 x00) new_SHA1)) = true.
Proof.
  assert (H : (length (replicate 19 x00) < 20)%nat) by (vm_compute; lia).
  split; [exact H |]. apply (finish_short_out new_SHA1 (replicate 19 x00) H).
Defined.

(** C6, as the specification states it, fails: [finish] with a buffer of 19
    bytes on a fresh hasher returns without an error, with the first 19
    bytes of the digest of the empty message in the buffer. *)
Lemma short_out_is_not_rejected :
  (length (replicate 19 x00) < 20)%nat
  /\ fst (finish (replicate 19 x00) new_SHA1)
     = Ok (byte_of_Z <$> [218; 57; 163; 238; 94; 107; 75; 13; 50; 85; 191; 239; 149; 96;
                          24; 144; 175; 216; 7])
  /\ ~ (exists msg, fst (finish (replicate 19 x00) new_SHA1) = Throw msg).
Proof.
  split; [vm_compute; lia |]. split; [vm_compute; reflexivity |].
  intros [msg H]. vm_compute in H. discriminate H.
Qed.

(** C7. [safeAdd] is addition modulo 2^32, wrapping around: as the signed
    word the code stores, and as an unsigned word.  So [temp] of a round is
    rotl5(a) + f + e + k + w[i] modulo 2^32, and after the 80 rounds each
    of the 5 state words is its old value plus the working variable, modulo
    2^32. *)
Theorem safeAdd_wraps :
  (forall x y, safeAdd x y = ToInt32 (x + y)
               /\ ToUint32 (safeAdd x y) = (x + y) mod 2 ^ 32)
  /\ (forall w i s,
        ToUint32 (va (round w i s))
        = (leftrotate (va s) 5 + fst (round_fk i (vb s) (vc s) (vd s)) + ve s
           + snd (round_fk i (vb s) (vc s) (vd s)) + Int32Array.get w i) mod 2 ^ 32)
  /\ (forall w v p pos,
        length v = 5%nat ->
        let v' := snd (hashBlock w v p pos) in
        let s := rounds (fst (hashBlock w v p pos)) v in
        ToUint32 (Int32Array.get v' 0) = (Int32Array.get v 0 + va s) mod 2 ^ 32
        /\ ToUint32 (Int32Array.get v' 1) = (Int32Array.get v 1 + vb s) mod 2 ^ 32
        /\ ToUint32 (Int32Array.get v' 2) = (Int32Array.get v 2 + vc s) mod 2 ^ 32
        /\ ToUint32 (Int32Array.get v' 3) = (Int32Array.get v 3 + vd s) mod 2 ^ 32
        /\ ToUint32 (Int32Array.get v' 4) = (Int32Array.get v 4 + ve s) mod 2 ^ 32).
Proof.
  assert (Hu : forall x y, ToUint32 (safeAdd x y) = (x + y) mod 2 ^ 32).
  { intros x y. rewrite safeAdd_ToInt32. apply ToUint32_ToInt32. }
  assert (Hm : forall x y, (x + ToInt32 y) mod 2 ^ 32 = (x + y) mod 2 ^ 32).
  { intros x y. destruct (ToInt32_decomp y) as [j ->].
    rewrite Z.add_assoc. now rewrite Z.mod_add by lia. }
  split; [| split].
  - intros x y. split; [apply safeAdd_ToInt32 | apply Hu].
  - intros w i s. unfold round.
    destruct (round_fk i (vb s) (vc s) (vd s)) as [f k]. cbn [va fst snd].
    unfold round_temp. rewrite Hu, !safeAdd_ToInt32.
    rewrite Hm. replace (leftrotate (va s) 5 + (f + ToInt32 (ve s + ToInt32 (k + Int32Array.get w i))))
      with (leftrotate (va s) 5 + f + ToInt32 (ve s + ToInt32 (k + Int32Array.get w i))) by lia.
    rewrite Hm. replace (leftrotate (va s) 5 + f + (ve s + ToInt32 (k + Int32Array.get w i)))
      with (leftrotate (va s) 5 + f + ve s + ToInt32 (k + Int32Array.get w i)) by lia.
    rewrite Hm. f_equal. lia.
  - intros w v p pos Hv. rewrite hashBlock_eq. cbv zeta. cbn [fst snd].
    set (s := rounds (expand_words (load_words p pos w)) v).
    unfold accumulate.
    assert (Hlen : forall a i x, length (Int32Array.set a i x) = length a)
      by apply Int32Array_length_set.
    repeat split.
    + rewrite !(Int32Array_get_set_ne _ _ 0) by lia.
      rewrite Int32Array_get_set_eq by lia. now rewrite ToUint32_ToInt32, Hu.
    + rewrite !(Int32Array_get_set_ne _ _ 1) by lia.
      rewrite Int32Array_get_set_eq by (rewrite ?Hlen; lia).
      rewrite !(Int32Array_get_set_ne _ _ 1) by lia. now rewrite ToUint32_ToInt32, Hu.
    + rewrite !(Int32Array_get_set_ne _ _ 2) by lia.
      rewrite Int32Array_get_set_eq by (rewrite ?Hlen; lia).
      rewrite !(Int32Array_get_set_ne _ _ 2) by lia. now rewrite ToUint32_ToInt32, Hu.
    + rewrite !(Int32Array_get_set_ne _ _ 3) by lia.
      rewrite Int32Array_get_set_eq by (rewrite ?Hlen; lia).
      rewrite !(Int32Array_get_set_ne _ _ 3) by lia. now rewrite ToUint32_ToInt32, Hu.
    + rewrite Int32Array_get_set_eq by (rewrite ?Hlen; lia).
      rewrite !(Int32Array_get_set_ne _ _ 4) by lia. now rewrite ToUint32_ToInt32, Hu.
Qed.

Lemma safeAdd_wraps_witness :
  length init_state = 5%nat
  /\ ToUint32 (Int32Array.get (snd (hashBlock (Int32Array.make 80) init_state [] 0)) 0)
     = (Int32Array.get init_state 0
        + va (rounds (fst (hashBlock (Int32Array.make 80) init_state [] 0)) init_state))
       mod 2 ^ 32.
Proof.
  split; [reflexivity |].
  destruct safeAdd_wraps as (_ & _ & H).
  destruct (H (Int32Array.make 80) init_state [] 0 eq_refl) as (H0 & _). exact H0.
Defined.

(** C8. HMAC-SHA1 with a key longer than the block size is HMAC-SHA1 with
    the SHA-1 digest of that key as the key, and it is
    Hash(outerPad ++ Hash(innerPad ++ message)) for the pads of that digest
    padded with zero bytes to the block size. *)
Theorem hmac_long_key (key data : list byte) :
  blockSize < Uint8Array.length key ->
  hash key = Ok (SHA1_digest key)
  /\ hashWithHmac key data = hashWithHmac (SHA1_digest key) data
  /\ hashWithHmac key data
     = Ok (SHA1_digest
             (xor_bytes 0x5c (zero_pad blockSize (SHA1_digest key))
              ++ SHA1_digest (xor_bytes 0x36 (zero_pad blockSize (SHA1_digest key)) ++ data))).
Proof.
  intros Hlong. split; [apply hash_digest |].
  assert (Hk : hashWithHmac key data = hmac_with hash blockSize (SHA1_digest key) data).
  { unfold hashWithHmac, hmac, effective_key.
    destruct (blockSize <? Uint8Array.length key) eqn:E; [| apply Z.ltb_ge in E; lia].
    now rewrite hash_digest. }
  split.
  - rewrite Hk. unfold hashWithHmac, hmac, effective_key.
    destruct (blockSize <? Uint8Array.length (SHA1_digest key)) eqn:E; [| reflexivity].
    apply Z.ltb_lt in E. unfold Uint8Array.length in E. rewrite SHA1_digest_length in E.
    unfold blockSize, BLOCK_SIZE in E. lia.
  - rewrite Hk. unfold hmac_with. rewrite (hash_digest (_ ++ data)). rewrite hash_digest.
    reflexivity.
Qed.

Lemma hmac_long_key_witness :
  blockSize < Uint8Array.length (replicate 65 x6b)
  /\ hashWithHmac (replicate 65 x6b) [x62]
     = hashWithHmac (SHA1_digest (replicate 65 x6b)) [x62].
Proof.
  assert (H : blockSize < Uint8Array.length (replicate 65 x6b)) by (vm_compute; reflexivity).
  split; [exact H |].
  destruct (hmac_long_key (replicate 65 x6b) [x62] H) as (_ & H2 & _). exact H2.
Defined.

(** C9. [reset] always returns, and sets the 5 state words to the fixed
    constants, the buffer length and the byte counter to 0 and the finished
    flag to false.  Whatever the hasher went through before, [reset] and
    then hashing [m] returns the digest that a fresh hasher returns for
    [m]. *)
Theorem reset_forgets this (m : list byte) :
  reachable this ->
  fst (reset this) = Ok tt
  /\ _state (snd (reset this))
     = ToInt32 <$> [0x67452301; 0xefcdab89; 0x98badcfe; 0x10325476; 0xc3d2e1f0]
  /\ _bufferLength (snd (reset this)) = 0
  /\ _bytesHashed (snd (reset this)) = 0
  /\ _finished (snd (reset this)) = false
  /\ fst ((call _ <- reset; call _ <- update_all m; digest) this)
     = fst ((call _ <- update_all m; digest) new_SHA1)
  /\ fst ((call _ <- update_all m; digest) new_SHA1) = Ok (SHA1_digest m).
Proof.
  intros Hreach. pose proof (reachable_invariant this Hreach) as Hinv.
  pose proof (absorbed_reset this Hinv) as Ha.
  split; [reflexivity |]. split.
  { rewrite <- init_state_words. destruct Hinv as (Hls & _).
    rewrite <- (initState_words this Hls). reflexivity. }
  do 3 (split; [reflexivity |]). split.
  - rewrite (update_digest m new_SHA1 absorbed_new).
    rewrite <- (update_digest m (snd (reset this)) Ha). reflexivity.
  - apply update_digest, absorbed_new.
Qed.

Lemma reset_forgets_witness :
  reachable (snd (digest (snd (update_all [x61; x62; x63] new_SHA1))))
  /\ fst ((call _ <- reset; call _ <- update_all [x78]; digest)
            (snd (digest (snd (update_all [x61; x62; x63] new_SHA1)))))
     = fst ((call _ <- update_all [x78]; digest) new_SHA1).
Proof.
  assert (Hr : reachable (snd (digest (snd (update_all [x61; x62; x63] new_SHA1))))).
  { apply reach_digest, reach_update; [apply reach_new | vm_compute; discriminate]. }
  split; [exact Hr |].
  destruct (reset_forgets _ [x78] Hr) as (_ & _ & _ & _ & _ & H & _). exact H.
Defined.

(** C10. In every reachable hasher whose finished flag is clear, the
    buffer length is at least 0 and below 64, and equals the byte counter
    modulo 64; so the test of [finish] on the byte counter [% 64] is the
    test on the buffered length. *)
Theorem bufferLength_invariant this :
  reachable this -> _finished this = false ->
  0 <= _bufferLength this < 64
  /\ _bufferLength this = _bytesHashed this mod 64
  /\ rem (_bytesHashed this) 64 = _bufferLength this mod 64
  /\ padLength_of (_bytesHashed this) = if _bufferLength this mod 64 <? 56 then 64 else 128.
Proof.
  intros Hreach _. destruct (reachable_invariant this Hreach) as (_ & _ & _ & Hbl & Hbh & Hmod).
  assert (Hrem : rem (_bytesHashed this) 64 = _bufferLength this mod 64).
  { unfold rem. rewrite Z.rem_mod_nonneg by lia. rewrite Hmod at 1. now rewrite Z.mod_mod by lia. }
  split; [exact Hbl |]. split; [exact Hmod |]. split; [exact Hrem |].
  unfold padLength_of. now rewrite Hrem.
Qed.

Lemma bufferLength_invariant_witness :
  reachable (snd (update_all (replicate 70 x61) new_SHA1))
  /\ _finished (snd (update_all (replicate 70 x61) new_SHA1)) = false
  /\ 0 <= _bufferLength (snd (update_all (replicate 70 x61) new_SHA1)) < 64
  /\ _bufferLength (snd (update_all (replicate 70 x61) new_SHA1))
     = _bytesHashed (snd (update_all (replicate 70 x61) new_SHA1)) mod 64.
Proof.
  assert (Hr : reachable (snd (update_all (replicate 70 x61) new_SHA1))).
  { apply reach_update; [apply reach_new | vm_compute; discriminate]. }
  assert (Hf : _finished (snd (update_all (replicate 70 x61) new_SHA1)) = false).
  { vm_compute. reflexivity. }
  split; [exact Hr |]. split; [exact Hf |].
  destruct (bufferLength_invariant _ Hr Hf) as (H1 & H2 & _). split; assumption.
Defined.

(** * Further properties of the code *)

(** ** The compression engine *)

Lemma hashBlocks_loop_tail fuel w v p pos len len' :
  0 <= len -> 0 <= len' -> len / 64 = len' / 64 ->
  hashBlocks_loop fuel w v p pos len = hashBlocks_loop fuel w v p pos len'.
Proof.
  revert w v pos len len'. induction fuel as [| fuel IH]; intros w v pos len len' H H' Hq;
    cbn [hashBlocks_loop]; [reflexivity |].
  destruct (64 <=? len) eqn:E; destruct (64 <=? len') eqn:E';
    try apply Z.leb_le in E; try apply Z.leb_le in E';
    try apply Z.leb_gt in E; try apply Z.leb_gt in E'.
  - destruct (hashBlock w v p pos) as [w1 v1]. apply IH; [lia | lia | zdiv].
  - exfalso. zdiv.
  - exfalso. zdiv.
  - reflexivity.
Qed.

Lemma hashBlocks_loop_pos fuel w v p pos len :
  0 <= len -> (Z.to_nat (len / 64) <= fuel)%nat ->
  snd (hashBlocks_loop fuel w v p pos len) = pos + 64 * (len / 64).
Proof.
  revert w v pos len. induction fuel as [| fuel IH]; intros w v pos len Hlen Hfuel;
    cbn [hashBlocks_loop].
  - cbn [snd]. assert (len / 64 = 0) by zdiv. lia.
  - destruct (64 <=? len) eqn:E.
    + apply Z.leb_le in E. destruct (hashBlock w v p pos) as [w1 v1].
      rewrite IH; [| lia | zdiv]. zdiv.
    + apply Z.leb_gt in E. cbn [snd]. assert (len / 64 = 0) by zdiv. lia.
Qed.

(** X1. [hashBlocks] consumes whole blocks only: with fewer than 64 bytes
    it changes nothing; otherwise it returns the offset behind the last
    whole block, and the bytes behind that block play no part. *)
Theorem hashBlocks_whole_blocks w v p pos len :
  (len < 64 -> hashBlocks w v p pos len = (w, v, pos))
  /\ (0 <= len ->
      snd (hashBlocks w v p pos len) = pos + 64 * (len / 64)
      /\ hashBlocks w v p pos len = hashBlocks w v p pos (64 * (len / 64))).
Proof.
  split.
  - intros H. unfold hashBlocks.
    destruct (Z.to_nat (len / 64)) as [| n] eqn:E; [reflexivity |].
    cbn [hashBlocks_loop]. destruct (64 <=? len) eqn:E'; [apply Z.leb_le in E'; lia | reflexivity].
  - intros H. unfold hashBlocks. split.
    + apply hashBlocks_loop_pos; [exact H | lia].
    + replace (64 * (len / 64) / 64) with (len / 64) by zdiv.
      apply hashBlocks_loop_tail; zdiv.
Qed.

Lemma hashBlocks_whole_blocks_witness :
  (3 < 64 /\ 0 <= 130)
  /\ hashBlocks (Int32Array.make 80) init_state (replicate 130 x61) 0 3
     = (Int32Array.make 80, init_state, 0)
  /\ snd (hashBlocks (Int32Array.make 80) init_state (replicate 130 x61) 0 130) = 128.
Proof.
  split; [lia |].
  destruct (hashBlocks_whole_blocks (Int32Array.make 80) init_state (replicate 130 x61) 0 3)
    as [H3 _].
  destruct (hashBlocks_whole_blocks (Int32Array.make 80) init_state (replicate 130 x61) 0 130)
    as [_ H130].
  split; [apply H3; lia |]. destruct (H130 ltac:(lia)) as [Hp _]. exact Hp.
Defined.

Lemma hashBlocks_loop_split n m w v p pos len :
  64 * Z.of_nat n <= len ->
  hashBlocks_loop (n + m) w v p pos len
  = (let '(w1, v1, pos1) := hashBlocks_loop n w v p pos (64 * Z.of_nat n) in
     hashBlocks_loop m w1 v1 p pos1 (len - 64 * Z.of_nat n)).
Proof.
  revert w v pos len. induction n as [| n IH]; intros w v pos len Hlen.
  - cbn [hashBlocks_loop Nat.add]. f_equal. lia.
  - cbn [hashBlocks_loop Nat.add].
    destruct (64 <=? len) eqn:E; [| apply Z.leb_gt in E; lia].
    destruct (64 <=? 64 * Z.of_nat (S n)) eqn:E'; [| apply Z.leb_gt in E'; lia].
    destruct (hashBlock w v p pos) as [w1 v1].
    rewrite IH by lia.
    replace (64 * Z.of_nat (S n) - 64) with (64 * Z.of_nat n) by lia.
    replace (len - 64 - 64 * Z.of_nat n) with (len - 64 * Z.of_nat (S n)) by lia.
    reflexivity.
Qed.

(** X2. [hashBlocks] composes: hashing [a] blocks and [len] more bytes in
    one call is hashing the [a] blocks, and then the rest from the offset
    that call returned, with the arrays as it left them. *)
Theorem hashBlocks_composes w v p pos a len :
  0 <= a -> 0 <= len ->
  hashBlocks w v p pos (64 * a + len)
  = (let '(w1, v1, pos1) := hashBlocks w v p pos (64 * a) in
     hashBlocks w1 v1 p pos1 len).
Proof.
  intros Ha Hlen. unfold hashBlocks.
  replace ((64 * a + len) / 64) with (a + len / 64) by zdiv.
  replace (64 * a / 64) with a by zdiv.
  assert (0 <= len / 64) by zdiv.
  rewrite Z2Nat.inj_add by lia.
  rewrite hashBlocks_loop_split by lia.
  rewrite Z2Nat.id by lia.
  replace (64 * a + len - 64 * a) with len by lia. reflexivity.
Qed.

Lemma hashBlocks_composes_witness :
  (0 <= 1 /\ 0 <= 70)
  /\ hashBlocks (Int32Array.make 80) init_state (replicate 140 x61) 0 (64 * 1 + 70)
     = (let '(w1, v1, pos1) :=
          hashBlocks (Int32Array.make 80) init_state (replicate 140 x61) 0 (64 * 1) in
        hashBlocks w1 v1 (replicate 140 x61) pos1 70).
Proof.
  split; [lia |].
  apply (hashBlocks_composes (Int32Array.make 80) init_state (replicate 140 x61) 0 1 70); lia.
Defined.

Lemma same_block_refl p pos : same_block p pos p pos.
Proof. intros k _. reflexivity. Qed.

(** X3. The message schedule is recomputed for every block: what the
    80-word array held before a call has no effect on the state words or
    the offset, and none on the array either once a block was hashed. *)
Theorem hashBlocks_schedule_recomputed w w' v p pos len :
  length w = 80%nat -> length w' = 80%nat ->
  snd (fst (hashBlocks w v p pos len)) = snd (fst (hashBlocks w' v p pos len))
  /\ snd (hashBlocks w v p pos len) = snd (hashBlocks w' v p pos len)
  /\ (64 <= len -> hashBlocks w v p pos len = hashBlocks w' v p pos len).
Proof.
  intros Hw Hw'. unfold hashBlocks.
  destruct (Z.to_nat (len / 64)) as [| n] eqn:E.
  - cbn [hashBlocks_loop fst snd]. split; [reflexivity |]. split; [reflexivity |].
    intros H. assert (1 <= len / 64) by zdiv. lia.
  - cbn [hashBlocks_loop]. destruct (64 <=? len) eqn:E'.
    + rewrite (hashBlock_ext w w' v p pos p pos (same_block_refl p pos) Hw Hw'). auto.
    + apply Z.leb_gt in E'. cbn [fst snd]. split; [reflexivity |]. split; [reflexivity |]. lia.
Qed.

Lemma hashBlocks_schedule_recomputed_witness :
  (length (Int32Array.make 80) = 80%nat /\ length (replicate 80 7) = 80%nat /\ 64 <= 64)
  /\ hashBlocks (Int32Array.make 80) init_state (replicate 64 x61) 0 64
     = hashBlocks (replicate 80 7) init_state (replicate 64 x61) 0 64.
Proof.
  split; [repeat apply conj; [reflexivity | reflexivity | lia] |].
  destruct (hashBlocks_schedule_recomputed (Int32Array.make 80) (replicate 80 7) init_state
              (replicate 64 x61) 0 64 eq_refl eq_refl) as (_ & _ & H).
  apply H. lia.
Defined.

Lemma hashBlock_reads p p' pos w v :
  same_block p pos p' pos -> hashBlock w v p pos = hashBlock w v p' pos.
Proof. intros H. rewrite !hashBlock_eq. now rewrite (load_words_ext p pos p' pos w H). Qed.

Lemma hashBlocks_loop_reads fuel w v p p' pos len :
  (forall i, pos <= i < pos + 64 * Z.of_nat fuel -> Uint8Array.get p i = Uint8Array.get p' i) ->
  hashBlocks_loop fuel w v p pos len = hashBlocks_loop fuel w v p' pos len.
Proof.
  revert w v pos len. induction fuel as [| fuel IH]; intros w v pos len H;
    cbn [hashBlocks_loop]; [reflexivity |].
  destruct (64 <=? len); [| reflexivity].
  rewrite (hashBlock_reads p p' pos w v) by (intros k Hk; apply H; lia).
  destruct (hashBlock w v p' pos) as [w1 v1]. apply IH. intros i Hi. apply H. lia.
Qed.

Lemma hashBlocks_reads_range_loop w v p p' pos len :
  (forall i, pos <= i < pos + 64 * (len / 64) -> Uint8Array.get p i = Uint8Array.get p' i) ->
  hashBlocks w v p pos len = hashBlocks w v p' pos len.
Proof.
  intros H. unfold hashBlocks. apply hashBlocks_loop_reads. intros i Hi. apply H.
  destruct (Z.le_gt_cases 0 (len / 64)); lia.
Qed.

(** X4. [hashBlocks] reads the bytes of the whole blocks between [pos] and
    [pos + len] and no others: two arrays that agree there (a read outside
    an array counting as 0) give the same result. *)
Theorem hashBlocks_reads_its_range w v p p' pos len :
  (forall i, pos <= i < pos + 64 * (len / 64) -> Uint8Array.get p i = Uint8Array.get p' i) ->
  hashBlocks w v p pos len = hashBlocks w v p' pos len.
Proof.
  intros H. now apply hashBlocks_reads_range_loop.
Qed.

Lemma hashBlocks_reads_its_range_witness :
  hashBlocks (Int32Array.make 80) init_state (replicate 64 x61 ++ [x01; x02]) 0 66
  = hashBlocks (Int32Array.make 80) init_state (replicate 64 x61) 0 66.
Proof.
  apply hashBlocks_reads_its_range. intros i Hi.
  change (64 * (66 / 64)) with 64 in Hi. unfold Uint8Array.get.
  destruct (i <? 0) eqn:E; [reflexivity |].
  rewrite lookup_app_l by (rewrite length_replicate; lia). reflexivity.
Defined.

(** ** [leftrotate] *)

Lemma ToInt32_of_ToUint32 a b : ToUint32 a = ToUint32 b -> ToInt32 a = ToInt32 b.
Proof.
  unfold ToUint32. intros H.
  pose proof (Z.div_mod a (2 ^ 32) ltac:(lia)) as Ha.
  pose proof (Z.div_mod b (2 ^ 32) ltac:(lia)) as Hb.
  destruct (ToInt32_decomp b) as [k Hk].
  apply ToInt32_unique with (k := k + b / 2 ^ 32 - a / 2 ^ 32); [apply ToInt32_range | lia].
Qed.

(** [leftrotate x c] is the sum of the two shifted halves, and stays a
    signed 32-bit word. *)
Lemma leftrotate_sum x c :
  0 < c < 32 ->
  leftrotate x c = ToInt32 (ToInt32 x * 2 ^ c) + ToUint32 x / 2 ^ (32 - c)
  /\ - 2 ^ 31 <= leftrotate x c < 2 ^ 31.
Proof.
  intros Hc. unfold leftrotate, bor, shl. rewrite shr_div by lia.
  replace (ToUint32 c mod 32) with c
    by (unfold ToUint32; rewrite (Z.mod_small c (2 ^ 32)) by lia; now rewrite Z.mod_small by lia).
  rewrite Z.shiftl_mul_pow2 by lia. rewrite ToInt32_idem.
  set (P := 2 ^ c). set (Q := 2 ^ (32 - c)).
  assert (HP : 0 < P) by (apply Z.pow_pos_nonneg; lia).
  assert (HQ : 0 < Q) by (apply Z.pow_pos_nonneg; lia).
  assert (HPQ : Q * P = 2 ^ 32).
  { subst P Q. rewrite <- Z.pow_add_r by lia. f_equal. lia. }
  assert (HP31 : 2 ^ (31 - c) * P = 2 ^ 31).
  { subst P. rewrite <- Z.pow_add_r by lia. f_equal. lia. }
  assert (H31 : 0 < 2 ^ (31 - c)) by (apply Z.pow_pos_nonneg; lia).
  assert (HU : 0 <= ToUint32 x < 2 ^ 32) by (apply Z.mod_pos_bound; lia).
  assert (Hb : 0 <= ToUint32 x / Q < P).
  { split; [apply Z.div_pos; lia |]. apply Z.div_lt_upper_bound; lia. }
  assert (HP2 : P <= 2 ^ 31) by nia.
  rewrite (ToInt32_small (ToUint32 x / Q)) by lia.
  destruct (ToInt32_decomp (ToInt32 x * P)) as [k Hk].
  pose proof (ToInt32_range (ToInt32 x * P)) as Hr.
  assert (Hmul : ToInt32 (ToInt32 x * P) = (ToInt32 x + k * Q) * P)
    by (rewrite Hk, <- HPQ; ring).
  assert (Hmod : ToInt32 (ToInt32 x * P) mod P = 0) by (rewrite Hmul; apply Z.mod_mul; lia).
  assert (Hc' : P = 2 ^ c) by reflexivity.
  rewrite (lor_disjoint_add _ _ c); [| lia | rewrite <- Hc'; exact Hmod | rewrite <- Hc'; lia].
  split; [reflexivity |].
  set (m := ToInt32 x + k * Q) in *. rewrite Hmul in *.
  assert (m < 2 ^ (31 - c)) by nia.
  assert (- 2 ^ (31 - c) <= m) by nia.
  nia.
Qed.

(** X5. [leftrotate x c] rotates the 32-bit word [x] left by [c] bits: the
    low [32 - c] bits move up by [c], and the high [c] bits come back in at
    the bottom.  Rotating on by [32 - c] gives [x] back. *)
Theorem leftrotate_rotates x c :
  0 < c < 32 ->
  ToUint32 (leftrotate x c)
  = (ToUint32 x mod 2 ^ (32 - c)) * 2 ^ c + ToUint32 x / 2 ^ (32 - c)
  /\ leftrotate (leftrotate x c) (32 - c) = ToInt32 x.
Proof.
  assert (Hform : forall y d, 0 < d < 32 ->
            ToUint32 (leftrotate y d)
            = (ToUint32 y mod 2 ^ (32 - d)) * 2 ^ d + ToUint32 y / 2 ^ (32 - d)).
  { intros y d Hd. destruct (leftrotate_sum y d Hd) as [-> _].
    set (P := 2 ^ d). set (Q := 2 ^ (32 - d)).
    assert (HP : 0 < P) by (apply Z.pow_pos_nonneg; lia).
    assert (HQ : 0 < Q) by (apply Z.pow_pos_nonneg; lia).
    assert (HPQ : Q * P = 2 ^ 32).
    { subst P Q. rewrite <- Z.pow_add_r by lia. f_equal. lia. }
    assert (HU : 0 <= ToUint32 y < 2 ^ 32) by (apply Z.mod_pos_bound; lia).
    assert (Hb : 0 <= ToUint32 y / Q < P).
    { split; [apply Z.div_pos; lia |]. apply Z.div_lt_upper_bound; lia. }
    pose proof (Z.mod_pos_bound (ToUint32 y) Q HQ) as Hl.
    pose proof (Z.div_mod (ToUint32 y) Q ltac:(lia)) as Hdm.
    destruct (ToInt32_decomp (ToInt32 y * P)) as [k Hk].
    destruct (ToInt32_decomp y) as [j Hj].
    unfold ToUint32 at 1.
    pose proof (Z.div_mod y (2 ^ 32) ltac:(lia)) as Hy. fold (ToUint32 y) in Hy.
    replace (ToInt32 (ToInt32 y * P) + ToUint32 y / Q)
      with ((ToUint32 y mod Q) * P + ToUint32 y / Q
            + (k + (j + y / 2 ^ 32) * P + ToUint32 y / Q) * 2 ^ 32) by nia.
    rewrite Z.mod_add by lia. apply Z.mod_small. nia. }
  intros Hc. split; [apply Hform, Hc |].
  destruct (leftrotate_sum (leftrotate x c) (32 - c) ltac:(lia)) as [_ Hrange].
  rewrite <- (ToInt32_small _ Hrange). apply ToInt32_of_ToUint32.
  rewrite Hform by lia. rewrite (Hform x c Hc).
  replace (32 - (32 - c)) with c by lia.
  set (P := 2 ^ c). set (Q := 2 ^ (32 - c)).
  assert (HP : 0 < P) by (apply Z.pow_pos_nonneg; lia).
  assert (HQ : 0 < Q) by (apply Z.pow_pos_nonneg; lia).
  assert (HPQ : Q * P = 2 ^ 32).
  { subst P Q. rewrite <- Z.pow_add_r by lia. f_equal. lia. }
  assert (HU : 0 <= ToUint32 x < 2 ^ 32) by (apply Z.mod_pos_bound; lia).
  assert (Hb : 0 <= ToUint32 x / Q < P).
  { split; [apply Z.div_pos; lia |]. apply Z.div_lt_upper_bound; lia. }
  pose proof (Z.mod_pos_bound (ToUint32 x) Q HQ) as Hl.
  pose proof (Z.div_mod (ToUint32 x) Q ltac:(lia)) as Hdm.
  set (l := ToUint32 x mod Q) in *. set (h := ToUint32 x / Q) in *.
  assert (Hm : (l * P + h) mod P = h).
  { rewrite Z.add_comm, Z.mod_add by lia. apply Z.mod_small. lia. }
  assert (Hd : (l * P + h) / P = l).
  { rewrite Z.add_comm, Z.div_add by lia. rewrite Z.div_small by lia. lia. }
  rewrite Hm, Hd. lia.
Qed.

Lemma leftrotate_rotates_witness :
  0 < 5 < 32
  /\ ToUint32 (leftrotate 0x80000001 5) = 0x30
  /\ leftrotate (leftrotate 0x80000001 5) (32 - 5) = ToInt32 0x80000001.
Proof.
  split; [lia |]. destruct (leftrotate_rotates 0x80000001 5 ltac:(lia)) as [H1 H2].
  split; [exact H1 | exact H2].
Defined.

(** ** [update] *)

Lemma copy_byte_reads data data' l :
  Uint8Array.get data (l_dataPos l) = Uint8Array.get data' (l_dataPos l) ->
  copy_byte data l = copy_byte data' l.
Proof. intros H. unfold copy_byte. now rewrite H. Qed.

Lemma copy_byte_range data l :
  l_dataPos (copy_byte data l) = l_dataPos l + 1
  /\ l_dataLength (copy_byte data l) = l_dataLength l - 1.
Proof. split; reflexivity. Qed.

Lemma fill_loop_reads fuel data data' l :
  (forall i, l_dataPos l <= i < l_dataPos l + l_dataLength l ->
             Uint8Array.get data i = Uint8Array.get data' i) ->
  fill_loop fuel data l = fill_loop fuel data' l.
Proof.
  revert l. induction fuel as [| fuel IH]; intros l H; cbn [fill_loop]; [reflexivity |].
  destruct ((_bufferLength (l_this l) <? blockSize) && (0 <? l_dataLength l)) eqn:E;
    [| reflexivity].
  apply andb_true_iff in E. destruct E as [_ E]. apply Z.ltb_lt in E.
  rewrite (copy_byte_reads data data' l) by (apply H; lia).
  apply IH. intros i Hi. destruct (copy_byte_range data' l) as [Hp Hl].
  rewrite Hp, Hl in Hi. apply H. lia.
Qed.

Lemma tail_loop_reads fuel data data' l :
  (forall i, l_dataPos l <= i < l_dataPos l + l_dataLength l ->
             Uint8Array.get data i = Uint8Array.get data' i) ->
  tail_loop fuel data l = tail_loop fuel data' l.
Proof.
  revert l. induction fuel as [| fuel IH]; intros l H; cbn [tail_loop]; [reflexivity |].
  destruct (0 <? l_dataLength l) eqn:E; [| reflexivity]. apply Z.ltb_lt in E.
  rewrite (copy_byte_reads data data' l) by (apply H; lia).
  apply IH. intros i Hi. destruct (copy_byte_range data' l) as [Hp Hl].
  rewrite Hp, Hl in Hi. apply H. lia.
Qed.

Lemma fill_loop_range fuel data l :
  l_dataPos l <= l_dataPos (fill_loop fuel data l)
  /\ l_dataPos (fill_loop fuel data l) + l_dataLength (fill_loop fuel data l)
     = l_dataPos l + l_dataLength l.
Proof.
  revert l. induction fuel as [| fuel IH]; intros l; cbn [fill_loop]; [lia |].
  destruct ((_bufferLength (l_this l) <? blockSize) && (0 <? l_dataLength l)); [| lia].
  destruct (IH (copy_byte data l)) as [H1 H2]. destruct (copy_byte_range data l) as [Hp Hl].
  rewrite Hp, Hl in *. lia.
Qed.

Lemma fill_buffer_range data l :
  l_dataPos l <= l_dataPos (fill_buffer data l)
  /\ l_dataPos (fill_buffer data l) + l_dataLength (fill_buffer data l)
     = l_dataPos l + l_dataLength l.
Proof.
  unfold fill_buffer. destruct (0 <? _bufferLength (l_this l)); [| lia].
  pose proof (fill_loop_range (Z.to_nat (l_dataLength l)) data l) as H.
  destruct (_bufferLength (l_this (fill_loop (Z.to_nat (l_dataLength l)) data l)) =? blockSize);
    [| exact H].
  match goal with
  | |- context [hashBlocks ?w ?v ?p ?pos ?len] =>
      destruct (hashBlocks w v p pos len) as [[w' v'] pos']
  end.
  exact H.
Qed.

Lemma fill_buffer_reads data data' l :
  (forall i, l_dataPos l <= i < l_dataPos l + l_dataLength l ->
             Uint8Array.get data i = Uint8Array.get data' i) ->
  fill_buffer data l = fill_buffer data' l.
Proof.
  intros H. unfold fill_buffer. now rewrite (fill_loop_reads _ data data' l H).
Qed.

Lemma hash_direct_range data l :
  l_dataPos l <= l_dataPos (hash_direct data l)
  /\ l_dataPos (hash_direct data l) + l_dataLength (hash_direct data l)
     = l_dataPos l + l_dataLength l.
Proof.
  unfold hash_direct, blockSize, BLOCK_SIZE. destruct (64 <=? l_dataLength l) eqn:E; [| lia].
  apply Z.leb_le in E.
  pose proof (hashBlocks_loop_pos (Z.to_nat (l_dataLength l / 64)) (_temp (l_this l))
                (_state (l_this l)) data (l_dataPos l) (l_dataLength l) ltac:(lia) ltac:(lia))
    as Hpos.
  fold (hashBlocks (_temp (l_this l)) (_state (l_this l)) data (l_dataPos l) (l_dataLength l))
    in Hpos.
  destruct (hashBlocks (_temp (l_this l)) (_state (l_this l)) data (l_dataPos l) (l_dataLength l))
    as [[w' v'] pos'].
  cbn [snd] in Hpos. cbn [l_dataPos l_dataLength]. unfold rem.
  rewrite Z.rem_mod_nonneg by lia. subst pos'. zdiv.
Qed.

Lemma hash_direct_reads data data' l :
  (forall i, l_dataPos l <= i < l_dataPos l + l_dataLength l ->
             Uint8Array.get data i = Uint8Array.get data' i) ->
  hash_direct data l = hash_direct data' l.
Proof.
  intros H. unfold hash_direct, blockSize, BLOCK_SIZE.
  destruct (64 <=? l_dataLength l) eqn:E; [| reflexivity]. apply Z.leb_le in E.
  rewrite (hashBlocks_reads_range_loop _ _ data data' (l_dataPos l) (l_dataLength l));
    [reflexivity |].
  intros i Hi. apply H. zdiv.
Qed.

Lemma update_reads data data' dataLength this :
  (forall i, 0 <= i < dataLength -> Uint8Array.get data i = Uint8Array.get data' i) ->
  update data dataLength this = update data' dataLength this.
Proof.
  intros H. unfold update. destruct (_finished this); [reflexivity |].
  set (l0 := mkLocals (with_bytesHashed (_bytesHashed this + dataLength) this) 0 dataLength).
  assert (H0 : forall i, l_dataPos l0 <= i < l_dataPos l0 + l_dataLength l0 ->
                         Uint8Array.get data i = Uint8Array.get data' i).
  { intros i Hi. apply H. exact Hi. }
  rewrite (fill_buffer_reads data data' l0 H0).
  destruct (fill_buffer_range data' l0) as [R1 R1'].
  set (l1 := fill_buffer data' l0) in *.
  assert (H1 : forall i, l_dataPos l1 <= i < l_dataPos l1 + l_dataLength l1 ->
                         Uint8Array.get data i = Uint8Array.get data' i).
  { intros i Hi. apply H0. lia. }
  rewrite (hash_direct_reads data data' l1 H1).
  destruct (hash_direct_range data' l1) as [R2 R2'].
  set (l2 := hash_direct data' l1) in *.
  assert (H2 : forall i, l_dataPos l2 <= i < l_dataPos l2 + l_dataLength l2 ->
                         Uint8Array.get data i = Uint8Array.get data' i).
  { intros i Hi. apply H0. lia. }
  now rewrite (tail_loop_reads _ data data' l2 H2).
Qed.

(** X6. [update(data, dataLength)] reads [data[0]] to
    [data[dataLength - 1]] and nothing else of [data]: two arrays that agree
    there (a read outside an array counting as 0) leave the same hasher. *)
Theorem update_reads_dataLength data data' dataLength this :
  (forall i, 0 <= i < dataLength -> Uint8Array.get data i = Uint8Array.get data' i) ->
  update data dataLength this = update data' dataLength this.
Proof. exact (update_reads data data' dataLength this). Qed.

Lemma update_reads_dataLength_witness :
  update [x61; x62; x63] 2 new_SHA1 = update [x61; x62; x64; x65] 2 new_SHA1.
Proof.
  apply update_reads_dataLength. intros i Hi.
  assert (i = 0 \/ i = 1) as [-> | ->] by lia; reflexivity.
Defined.

(** X7. What [dataLength] means: with [dataLength] inside the array,
    [update] hashes the first [dataLength] bytes; with [dataLength] beyond
    it, the missing bytes are hashed as zero bytes. *)
Theorem update_length_semantics (data : list byte) dataLength this :
  (0 <= dataLength <= Uint8Array.length data ->
   update data dataLength this = update_all (take (Z.to_nat dataLength) data) this)
  /\ (Uint8Array.length data <= dataLength ->
      update data dataLength this
      = update_all (data ++ replicate (Z.to_nat (dataLength - Uint8Array.length data)) x00)
          this).
Proof.
  unfold update_all, Uint8Array.length. split; intros Hn.
  - rewrite length_take. replace (Z.of_nat (Z.to_nat dataLength `min` length data)) with dataLength
      by lia.
    apply update_reads. intros i Hi. unfold Uint8Array.get.
    destruct (i <? 0); [reflexivity |]. now rewrite lookup_take_lt by lia.
  - rewrite length_app, length_replicate.
    replace (Z.of_nat (length data + Z.to_nat (dataLength - Z.of_nat (length data))))
      with dataLength by lia.
    apply update_reads. intros i Hi. unfold Uint8Array.get.
    destruct (i <? 0) eqn:E; [reflexivity |]. apply Z.ltb_ge in E.
    destruct (decide (Z.to_nat i < length data)%nat) as [Hlt | Hge].
    + now rewrite lookup_app_l by lia.
    + rewrite lookup_app_r by lia. rewrite (lookup_ge_None_2 data) by lia.
      rewrite lookup_replicate_2 by lia. reflexivity.
Qed.

Lemma update_length_semantics_witness :
  (0 <= 2 <= Uint8Array.length [x61; x62; x63] /\ Uint8Array.length [x61; x62; x63] <= 5)
  /\ update [x61; x62; x63] 2 new_SHA1 = update_all [x61; x62] new_SHA1
  /\ update [x61; x62; x63] 5 new_SHA1 = update_all [x61; x62; x63; x00; x00] new_SHA1.
Proof.
  assert (H : 0 <= 2 <= Uint8Array.length [x61; x62; x63]
              /\ Uint8Array.length [x61; x62; x63] <= 5) by (vm_compute; intuition discriminate).
  split; [exact H |].
  destruct (update_length_semantics [x61; x62; x63] 2 new_SHA1) as [H2 _].
  destruct (update_length_semantics [x61; x62; x63] 5 new_SHA1) as [_ H5].
  split; [apply H2, H | apply H5, H].
Defined.










(** X9. [update] with length 0 changes nothing: on a reachable, unfinished
    hasher it returns and leaves every field as it was, whatever the
    array. *)
Theorem update_nothing data this :
  reachable this -> _finished this = false -> update data 0 this = (Ok tt, this).
Proof.
  intros Hreach Hfin. destruct (reachable_invariant this Hreach) as (_ & _ & _ & Hbl & _).
  unfold update. rewrite Hfin.
  replace (with_bytesHashed (_bytesHashed this + 0) this) with this
    by (destruct this; unfold with_bytesHashed; cbn; f_equal; lia).
  unfold fill_buffer, hash_direct. cbn [l_this l_dataLength l_dataPos].
  change (Z.to_nat 0) with 0%nat. cbn [fill_loop].
  destruct (0 <? _bufferLength this).
  - cbn [l_this]. unfold blockSize, BLOCK_SIZE.
    destruct (_bufferLength this =? 64) eqn:E; [apply Z.eqb_eq in E; lia |].
    cbn [l_dataLength]. change (64 <=? 0) with false. cbv iota.
    cbn [l_dataLength]. change (Z.to_nat 0) with 0%nat. reflexivity.
  - unfold blockSize, BLOCK_SIZE. cbn [l_dataLength]. change (64 <=? 0) with false. cbv iota.
    cbn [l_dataLength]. change (Z.to_nat 0) with 0%nat. reflexivity.
Qed.

Lemma update_nothing_witness :
  reachable (snd (update_all [x61] new_SHA1))
  /\ _finished (snd (update_all [x61] new_SHA1)) = false
  /\ update [x62] 0 (snd (update_all [x61] new_SHA1))
     = (Ok tt, snd (update_all [x61] new_SHA1)).
Proof.
  assert (Hr : reachable (snd (update_all [x61] new_SHA1))).
  { apply reach_update; [apply reach_new | vm_compute; discriminate]. }
  assert (Hf : _finished (snd (update_all [x61] new_SHA1)) = false) by (vm_compute; reflexivity).
  split; [exact Hr |]. split; [exact Hf |]. apply (update_nothing [x62] _ Hr Hf).
Defined.

(** X10. The state words change only when a block is complete: an [update]
    that leaves the buffer short of 64 bytes keeps the 5 state words and the
    schedule array, and only lengthens the buffered data. *)
Theorem update_small_keeps_state data dataLength this :
  reachable this -> _finished this = false ->
  0 <= dataLength -> _bufferLength this + dataLength < 64 ->
  _state (snd (update data dataLength this)) = _state this
  /\ _temp (snd (update data dataLength this)) = _temp this
  /\ _bufferLength (snd (update data dataLength this)) = _bufferLength this + dataLength.
Proof.
  intros Hreach Hfin Hn Hsmall.
  destruct (reachable_invariant this Hreach) as (_ & _ & _ & Hbl & _).
  unfold update. rewrite Hfin. cbn [snd].
  set (this0 := with_bytesHashed (_bytesHashed this + dataLength) this).
  assert (E0 : _bufferLength this0 = _bufferLength this) by (destruct this; reflexivity).
  assert (Es : _state this0 = _state this) by (destruct this; reflexivity).
  assert (Et : _temp this0 = _temp this) by (destruct this; reflexivity).
  assert (Hl1 : exists l1, fill_buffer data (mkLocals this0 0 dataLength) = l1
                  /\ _state (l_this l1) = _state this /\ _temp (l_this l1) = _temp this
                  /\ _bufferLength (l_this l1) + l_dataLength l1
                     = _bufferLength this + dataLength
                  /\ 0 <= l_dataLength l1
                  /\ _bufferLength this <= _bufferLength (l_this l1)).
  { unfold fill_buffer. cbn [l_this l_dataLength l_dataPos]. rewrite E0.
    destruct (0 <? _bufferLength this) eqn:E.
    - destruct (fill_loop_counters (Z.to_nat dataLength) data (mkLocals this0 0 dataLength))
        as ((F1 & F2 & _) & C1 & C2); cbn [l_this l_dataLength l_dataPos]; try lia.
      cbn [l_this l_dataLength l_dataPos] in *. rewrite E0 in *.
      set (l1 := fill_loop (Z.to_nat dataLength) data (mkLocals this0 0 dataLength)) in *.
      unfold blockSize, BLOCK_SIZE.
      destruct (_bufferLength (l_this l1) =? 64) eqn:E2; [apply Z.eqb_eq in E2; lia |].
      exists l1. rewrite F1, F2, C1, C2, Es, Et. repeat split; lia || reflexivity.
    - eexists. split; [reflexivity |]. cbn [l_this l_dataLength]. rewrite E0, Es, Et.
      repeat split; lia || reflexivity. }
  destruct Hl1 as (l1 & -> & S1 & T1 & B1 & D1 & G1).
  assert (Hd : hash_direct data l1 = l1).
  { unfold hash_direct, blockSize, BLOCK_SIZE.
    destruct (64 <=? l_dataLength l1) eqn:E; [apply Z.leb_le in E; lia | reflexivity]. }
  rewrite Hd.
  destruct (tail_loop_counters (Z.to_nat (l_dataLength l1)) data l1 D1 ltac:(lia))
    as ((F1 & F2 & _) & C1 & _).
  rewrite F1, F2, C1. repeat split; congruence || lia.
Qed.

Lemma update_small_keeps_state_witness :
  (reachable new_SHA1 /\ _finished new_SHA1 = false /\ 0 <= 63
   /\ _bufferLength new_SHA1 + 63 < 64)
  /\ _state (snd (update (replicate 63 x61) 63 new_SHA1)) = _state new_SHA1.
Proof.
  assert (H : reachable new_SHA1 /\ _finished new_SHA1 = false /\ 0 <= 63
              /\ _bufferLength new_SHA1 + 63 < 64).
  { split; [apply reach_new |]. split; [reflexivity |]. split; [lia | reflexivity]. }
  split; [exact H |]. destruct H as (Hr & Hf & Hn & Hs).
  destruct (update_small_keeps_state (replicate 63 x61) 63 new_SHA1 Hr Hf Hn Hs) as (H1 & _).
  exact H1.
Defined.

(** ** The methods of the class *)

Lemma new_SHA1_fields :
  new_SHA1 = mkSHA1 init_state (Int32Array.make 80) (Uint8Array.make 128) 0 0 false.
Proof. reflexivity. Qed.

(** X11. [clean] leaves a reachable hasher exactly as the constructor
    makes one: zeroed buffer and schedule, the initial state words, both
    counters 0, the flag clear. *)
Theorem clean_gives_fresh this : reachable this -> clean this = (Ok tt, new_SHA1).
Proof.
  intros Hreach. destruct (reachable_invariant this Hreach) as (Hls & Hlt & Hlb & _).
  rewrite new_SHA1_fields. unfold clean, reset.
  set (this1 := with_temp (wipe 0 (_temp (with_buffer (wipe x00 (_buffer this)) this)))
                 (with_buffer (wipe x00 (_buffer this)) this)).
  assert (Hs1 : length (_state this1) = 5%nat) by (destruct this; exact Hls).
  pose proof (initState_words this1 Hs1) as Hinit.
  assert (Ht : _temp (_initState this1) = Int32Array.make 80).
  { replace (_temp (_initState this1)) with (wipe 0 (_temp this)) by (destruct this; reflexivity).
    unfold wipe. now rewrite Hlt. }
  assert (Hb : _buffer (_initState this1) = Uint8Array.make 128).
  { replace (_buffer (_initState this1)) with (wipe x00 (_buffer this))
      by (destruct this; reflexivity).
    unfold wipe. now rewrite Hlb. }
  unfold with_finished, with_bytesHashed, with_bufferLength.
  cbn [_state _temp _buffer _bufferLength _bytesHashed _finished].
  rewrite Hinit, Ht, Hb. reflexivity.
Qed.

Lemma clean_gives_fresh_witness :
  reachable (snd (digest (snd (update_all [x61; x62; x63] new_SHA1))))
  /\ clean (snd (digest (snd (update_all [x61; x62; x63] new_SHA1)))) = (Ok tt, new_SHA1).
Proof.
  assert (Hr : reachable (snd (digest (snd (update_all [x61; x62; x63] new_SHA1))))).
  { apply reach_digest, reach_update; [apply reach_new | vm_compute; discriminate]. }
  split; [exact Hr |]. apply (clean_gives_fresh _ Hr).
Defined.

(** X12. [hash] never throws and returns 20 bytes: the digest that the
    incremental interface returns for the same bytes, however they are cut
    into chunks. *)
Theorem hash_is_incremental (chunks : list (list byte)) :
  exists d,
    hash (concat chunks) = Ok d /\ length d = 20%nat
    /\ fst ((call _ <- update_chunks chunks; digest) new_SHA1) = Ok d.
Proof.
  exists (SHA1_digest (concat chunks)).
  split; [apply hash_digest |]. split; [apply SHA1_digest_length |].
  destruct (update_chunks_absorbed chunks [] new_SHA1 absorbed_new) as (this1 & Hu & Ha1).
  cbn [app] in Ha1. destruct (digest_absorbed _ this1 Ha1) as (this2 & Hd & _).
  unfold bind. rewrite Hu, Hd. reflexivity.
Qed.

Lemma arrayBufferToHex_length bytes :
  String.length (arrayBufferToHex bytes) = (2 * length bytes)%nat.
Proof.
  induction bytes as [| b rest IH]; [reflexivity |].
  cbn [arrayBufferToHex String.length length]. rewrite IH. lia.
Qed.

(** X13. [sha1] never throws, and returns the 40 characters that encode
    the digest of the UTF-8 bytes of its argument. *)
Theorem sha1_returns_hex40 (s : list Z) :
  sha1 s = Ok (arrayBufferToHex (SHA1_digest (TextEncoder_encode s)))
  /\ String.length (arrayBufferToHex (SHA1_digest (TextEncoder_encode s))) = 40%nat.
Proof.
  split.
  - unfold sha1. cbv zeta. rewrite hash_digest. reflexivity.
  - rewrite arrayBufferToHex_length, SHA1_digest_length. reflexivity.
Qed.

Lemma init_state_length : length init_state = 5%nat.
Proof. reflexivity. Qed.

Lemma absorbed_invariant m this : absorbed m this -> invariant this.
Proof.
  intros (Hfin & Hbh & Hbl & Hst & Hbuf & Hlb & Hlt).
  assert (H0 : 0 <= Uint8Array.length m) by (unfold Uint8Array.length; lia).
  unfold invariant. rewrite Hst, absorb_length, init_state_length, Hbl, Hbh.
  repeat (split; [first [assumption | reflexivity | lia | zdiv] |]). reflexivity.
Qed.

(** A snapshot restored into any well-shaped hasher gives a hasher that
    has absorbed what the saved one had. *)
Lemma restore_absorbed m this that :
  absorbed m this -> invariant that ->
  exists s that',
    saveState this = (Ok s, this)
    /\ restoreState s that = (Ok tt, that')
    /\ absorbed m that'.
Proof.
  intros Ha Hthat. pose proof (absorbed_invariant m this Ha) as Hthis.
  pose proof Ha as (Hfin & Hbh & Hbl & Hst & Hbuf & Hlb & Hlt).
  destruct Hthat as (Tls & Tlt & Tlb & Trest).
  assert (Hsave : saveState this
                  = (Ok {| state := _state this;
                           buffer := if 0 <? _bufferLength this then Some (_buffer this) else None;
                           bufferLength := _bufferLength this;
                           bytesHashed := _bytesHashed this |}, this)).
  { unfold saveState. now rewrite Hfin. }
  eexists. eexists. split; [exact Hsave |].
  destruct (restoreState_invariant
              {| state := _state this;
                 buffer := if 0 <? _bufferLength this then Some (_buffer this) else None;
                 bufferLength := _bufferLength this;
                 bytesHashed := _bytesHashed this |} that this) as [Heq _].
  { unfold invariant. auto 10. }
  { exact Hthis. }
  { left. now rewrite Hsave. }
  split; [exact Heq |].
  unfold absorbed, buffered.
  cbn [state buffer bufferLength bytesHashed _state _temp _buffer _bufferLength _bytesHashed
       _finished].
  split; [reflexivity |]. split; [exact Hbh |]. split; [exact Hbl |]. split; [exact Hst |].
  destruct (0 <? _bufferLength this) eqn:E; cbn [default].
  - auto.
  - apply Z.ltb_ge in E.
    assert (H0 : 0 <= Uint8Array.length m) by (unfold Uint8Array.length; lia).
    assert (Hz : Uint8Array.length m mod 64 = 0) by zdiv.
    rewrite Hz. cbn [Z.to_nat take]. split; [| auto].
    symmetry. apply drop_ge. unfold Uint8Array.length in *. zdiv.
Qed.

(** X14. [saveState] and [restoreState] round trip: the state saved on a
    hasher that was fed some chunks, restored into any reachable hasher
    (finished or not), gives a hasher that goes on as the saved one: fed the
    same further data, it returns the same digest, that of all the bytes. *)
Theorem restore_continues (chunks : list (list byte)) (more : list byte) that :
  reachable that ->
  exists s that',
    saveState (snd (update_chunks chunks new_SHA1))
    = (Ok s, snd (update_chunks chunks new_SHA1))
    /\ restoreState s that = (Ok tt, that')
    /\ fst ((call _ <- update_all more; digest) that')
       = fst ((call _ <- update_all more; digest) (snd (update_chunks chunks new_SHA1)))
    /\ fst ((call _ <- update_all more; digest) that')
       = Ok (SHA1_digest (concat chunks ++ more)).
Proof.
  intros Hreach.
  destruct (update_chunks_absorbed chunks [] new_SHA1 absorbed_new) as (this & Hu & Ha).
  cbn [app] in Ha. rewrite Hu. cbn [snd].
  destruct (restore_absorbed _ this that Ha (reachable_invariant that Hreach))
    as (s & that' & Hs & Hr & Ha').
  exists s, that'. split; [exact Hs |]. split; [exact Hr |].
  assert (Hrun : forall h, absorbed (concat chunks) h ->
            fst ((call _ <- update_all more; digest) h) = Ok (SHA1_digest (concat chunks ++ more))).
  { intros h Hh. destruct (update_absorbed _ more h Hh) as (h1 & Hu1 & Ha1).
    destruct (digest_absorbed _ h1 Ha1) as (h2 & Hd & _).
    unfold bind. rewrite Hu1, Hd. reflexivity. }
  split; [now rewrite (Hrun that' Ha'), (Hrun this Ha) | apply Hrun, Ha'].
Qed.

Lemma restore_continues_witness :
  reachable (snd (digest new_SHA1))
  /\ exists s that',
       saveState (snd (update_chunks [[x61]; [x62]] new_SHA1))
       = (Ok s, snd (update_chunks [[x61]; [x62]] new_SHA1))
       /\ restoreState s (snd (digest new_SHA1)) = (Ok tt, that')
       /\ fst ((call _ <- update_all [x63]; digest) that')
          = Ok (SHA1_digest (concat [[x61]; [x62]] ++ [x63])).
Proof.
  assert (Hr : reachable (snd (digest new_SHA1))) by apply reach_digest, reach_new.
  split; [exact Hr |].
  destruct (restore_continues [[x61]; [x62]] [x63] _ Hr) as (s & that' & H1 & H2 & _ & H4).
  exists s, that'. split; [exact H1 |]. split; [exact H2 | exact H4].
Defined.

(** X15. The two states of a hasher: after [finish], whatever the hasher
    was, [update] and [saveState] throw and leave it as it is; after a
    [reset] both return again. *)
Theorem finished_rejects_until_reset this out data dataLength :
  update data dataLength (snd (finish out this))
  = (Throw "SHA1: can't update because hash was finished.", snd (finish out this))
  /\ saveState (snd (finish out this))
     = (Throw "SHA1: cannot save finished state", snd (finish out this))
  /\ fst (update data dataLength (snd (reset (snd (finish out this))))) = Ok tt
  /\ (exists s, fst (saveState (snd (reset (snd (finish out this))))) = Ok s).
Proof.
  pose proof (finish_sets_finished out this) as Hfin.
  set (done := snd (finish out this)) in *.
  split; [unfold update; now rewrite Hfin |].
  split; [unfold saveState; now rewrite Hfin |].
  assert (Hreset : _finished (snd (reset done)) = false) by reflexivity.
  split.
  - unfold update. now rewrite Hreset.
  - unfold saveState. rewrite Hreset. eexists. reflexivity.
Qed.

(** X16. [restoreState] with arrays that do not fit: a saved state array
    longer than the 5 words throws and changes nothing; a saved buffer
    longer than the hasher's throws after the state words and the buffer
    length were overwritten, with the byte counter, the finished flag and
    the buffer still the old ones. *)
Theorem restoreState_range_errors s this :
  ((length (_state this) < length (state s))%nat ->
   restoreState s this = (Throw "RangeError", this))
  /\ (forall b,
        (length (state s) <= length (_state this))%nat ->
        buffer s = Some b -> (length (_buffer this) < length b)%nat ->
        restoreState s this
        = (Throw "RangeError",
           mkSHA1 (state s ++ drop (length (state s)) (_state this)) (_temp this)
                  (_buffer this) (bufferLength s) (_bytesHashed this) (_finished this))).
Proof.
  split.
  - intros H. unfold restoreState, typed_set.
    destruct (length (state s) <=? length (_state this))%nat eqn:E;
      [apply Nat.leb_le in E; lia | reflexivity].
  - intros b Hs Hb Hlen. unfold restoreState, typed_set.
    destruct (length (state s) <=? length (_state this))%nat eqn:E;
      [| apply Nat.leb_gt in E; lia].
    rewrite Hb. unfold with_bufferLength, with_state.
    cbn [_state _temp _buffer _bufferLength _bytesHashed _finished].
    destruct (length b <=? length (_buffer this))%nat eqn:E';
      [apply Nat.leb_le in E'; lia | reflexivity].
Qed.

Lemma restoreState_range_errors_witness :
  ((length (_state new_SHA1) < length (state (mkSavedState (replicate 6 0%Z) None 0 0)))%nat
   /\ restoreState (mkSavedState (replicate 6 0%Z) None 0 0) new_SHA1
      = (Throw "RangeError", new_SHA1))
  /\ ((length (_buffer new_SHA1) < length (replicate 129 x00))%nat
      /\ snd (restoreState (mkSavedState (replicate 5 7%Z) (Some (replicate 129 x00)) 9 9)
                new_SHA1)
         = mkSHA1 (replicate 5 7%Z) (_temp new_SHA1) (_buffer new_SHA1) 9 0 false).
Proof.
  destruct (restoreState_range_errors (mkSavedState (replicate 6 0%Z) None 0 0) new_SHA1)
    as [H1 _].
  destruct (restoreState_range_errors
              (mkSavedState (replicate 5 7%Z) (Some (replicate 129 x00)) 9 9) new_SHA1)
    as [_ H2].
  assert (Ha : (length (_state new_SHA1)
                < length (state (mkSavedState (replicate 6 0%Z) None 0 0)))%nat)
    by (vm_compute; lia).
  assert (Hb : (length (_buffer new_SHA1) < length (replicate 129 x00))%nat)
    by (vm_compute; lia).
  split; [split; [exact Ha | exact (H1 Ha)] |]. split; [exact Hb |].
  rewrite (H2 (replicate 129 x00)); [reflexivity | vm_compute; lia | reflexivity | exact Hb].
Defined.

(** X17. The padded length always leaves room: on a reachable hasher it is
    64 or 128, at least 9 bytes more than the buffered length (the
    terminator and the 8 length bytes fit), and at most 72 more (no block
    of padding alone); it is 64 exactly when at most 55 bytes are
    buffered. *)
Theorem padLength_has_room this :
  reachable this ->
  _bufferLength this + 9 <= padLength_of (_bytesHashed this) <= _bufferLength this + 72
  /\ (padLength_of (_bytesHashed this) = 64 \/ padLength_of (_bytesHashed this) = 128)
  /\ (padLength_of (_bytesHashed this) = 64 <-> _bufferLength this <= 55).
Proof.
  intros Hreach. destruct (reachable_invariant this Hreach) as (_ & _ & _ & Hbl & Hbh & Hmod).
  rewrite padLength_of_mod by lia. rewrite <- Hmod.
  destruct (_bufferLength this <? 56) eqn:E; [apply Z.ltb_lt in E | apply Z.ltb_ge in E];
    repeat split; intros; lia.
Qed.

Lemma padLength_has_room_witness :
  reachable (snd (update_all (replicate 56 x61) new_SHA1))
  /\ padLength_of (_bytesHashed (snd (update_all (replicate 56 x61) new_SHA1))) = 128.
Proof.
  assert (Hr : reachable (snd (update_all (replicate 56 x61) new_SHA1))).
  { apply reach_update; [apply reach_new | vm_compute; discriminate]. }
  split; [exact Hr |].
  destruct (padLength_has_room _ Hr) as (_ & [H | H] & _); [| exact H].
  vm_compute in H. discriminate H.
Defined.

(** X18. A state passed through [cleanSavedState] must not be restored:
    [restoreState] accepts it, and leaves a hasher with both counters 0
    and the flag clear, but with all 5 state words 0 instead of the initial
    constants. *)
Theorem restore_cleaned_zeroes this that :
  reachable this -> _finished this = false -> reachable that ->
  exists s that',
    saveState this = (Ok s, this)
    /\ restoreState (cleanSavedState s) that = (Ok tt, that')
    /\ _state that' = [0; 0; 0; 0; 0]
    /\ _state that' <> init_state
    /\ _bufferLength that' = 0 /\ _bytesHashed that' = 0 /\ _finished that' = false.
Proof.
  intros Hthis Hfin Hthat.
  pose proof (reachable_invariant this Hthis) as Ithis.
  pose proof (reachable_invariant that Hthat) as Ithat.
  assert (Hsave : saveState this
                  = (Ok {| state := _state this;
                           buffer := if 0 <? _bufferLength this then Some (_buffer this) else None;
                           bufferLength := _bufferLength this;
                           bytesHashed := _bytesHashed this |}, this)).
  { unfold saveState. now rewrite Hfin. }
  eexists. eexists. split; [exact Hsave |].
  match goal with
  | |- restoreState ?c that = _ /\ _ =>
      destruct (restoreState_invariant c that this Ithat Ithis) as [Heq _]
  end.
  { right. eexists. split; [now rewrite Hsave | reflexivity]. }
  split; [exact Heq |].
  cbn [cleanSavedState state bufferLength bytesHashed _state _bufferLength _bytesHashed _finished].
  destruct Ithis as (Hls & _). unfold wipe. rewrite Hls.
  split; [reflexivity |]. split; [discriminate |]. auto.
Qed.

Lemma restore_cleaned_zeroes_witness :
  (reachable new_SHA1 /\ _finished new_SHA1 = false)
  /\ exists s that',
       saveState new_SHA1 = (Ok s, new_SHA1)
       /\ restoreState (cleanSavedState s) new_SHA1 = (Ok tt, that')
       /\ _state that' = [0; 0; 0; 0; 0].
Proof.
  split; [split; [apply reach_new | reflexivity] |].
  destruct (restore_cleaned_zeroes new_SHA1 new_SHA1 reach_new eq_refl reach_new)
    as (s & that' & H1 & H2 & H3 & _).
  exists s, that'. split; [exact H1 |]. split; [exact H2 | exact H3].
Defined.

(** X19. No array is ever resized and the counters stay in range: in
    every reachable hasher, finished or not, the state has 5 words, the
    schedule 80, the buffer 128 bytes, the byte counter is not negative, and
    the buffer length is the byte counter modulo 64. *)
Theorem reachable_shapes this :
  reachable this ->
  length (_state this) = 5%nat /\ length (_temp this) = 80%nat
  /\ length (_buffer this) = 128%nat
  /\ 0 <= _bytesHashed this
  /\ _bufferLength this = _bytesHashed this mod 64.
Proof.
  intros Hreach. destruct (reachable_invariant this Hreach) as (H1 & H2 & H3 & _ & H5 & H6).
  auto.
Qed.

Lemma reachable_shapes_witness :
  reachable (snd (digest (snd (update_all (replicate 70 x61) new_SHA1))))
  /\ length (_buffer (snd (digest (snd (update_all (replicate 70 x61) new_SHA1))))) = 128%nat.
Proof.
  assert (Hr : reachable (snd (digest (snd (update_all (replicate 70 x61) new_SHA1))))).
  { apply reach_digest, reach_update; [apply reach_new | vm_compute; discriminate]. }
  split; [exact Hr |]. destruct (reachable_shapes _ Hr) as (_ & _ & H & _). exact H.
Defined.

(** X20. [finish] writes the first 20 bytes of [out] at most: the buffer
    keeps its length, and a buffer of 20 bytes or more holds the digest in
    its first 20 bytes and its old bytes behind them. *)
Theorem finish_writes_first_20 this (out : list byte) :
  exists out',
    fst (finish out this) = Ok out'
    /\ length out' = length out
    /\ drop 20 out' = drop 20 out
    /\ ((20 <= length out)%nat ->
        out' = serialize (_state (snd (finish out this))) ++ drop 20 out).
Proof.
  eexists. split; [apply finish_result |]. rewrite write_state_serialize.
  set (d := serialize (_state (snd (finish out this)))).
  assert (Hd : length d = 20%nat) by apply serialize_length.
  destruct (decide (20 <= length out)%nat) as [Hge | Hlt].
  - assert (Hfull : take (length out) (d ++ drop 20 out) = d ++ drop 20 out).
    { apply take_ge. rewrite length_app, length_drop. lia. }
    rewrite Hfull. split; [rewrite length_app, length_drop; lia |].
    split; [now rewrite drop_app_length' by lia | reflexivity].
  - split; [rewrite length_take, length_app, length_drop; lia |].
    split; [| lia]. rewrite (drop_ge out) by lia. apply drop_ge.
    rewrite length_take. lia.
Qed.

Lemma finish_writes_first_20_witness :
  (20 <= length (replicate 22 xff))%nat
  /\ exists out',
       fst (finish (replicate 22 xff) new_SHA1) = Ok out'
       /\ drop 20 out' = [xff; xff].
Proof.
  split; [vm_compute; lia |].
  destruct (finish_writes_first_20 new_SHA1 (replicate 22 xff)) as (out' & H1 & _ & H3 & _).
  exists out'. split; [exact H1 | exact H3].
Defined.

(** X21. What the hasher holds between calls: after any chunks were fed to
    a fresh hasher, the byte counter is their total length, the state words
    are the chaining value after the whole 64-byte blocks of the bytes fed,
    and the buffer starts with the bytes behind the last whole block. *)
Theorem update_chunks_buffers_tail (chunks : list (list byte)) :
  fst (update_chunks chunks new_SHA1) = Ok tt
  /\ _finished (snd (update_chunks chunks new_SHA1)) = false
  /\ _bytesHashed (snd (update_chunks chunks new_SHA1)) = Uint8Array.length (concat chunks)
  /\ _bufferLength (snd (update_chunks chunks new_SHA1))
     = Uint8Array.length (concat chunks) mod 64
  /\ _state (snd (update_chunks chunks new_SHA1))
     = absorb (Z.to_nat (Uint8Array.length (concat chunks) / 64)) init_state (concat chunks)
  /\ take (Z.to_nat (_bufferLength (snd (update_chunks chunks new_SHA1))))
          (_buffer (snd (update_chunks chunks new_SHA1)))
     = drop (Z.to_nat (64 * (Uint8Array.length (concat chunks) / 64))) (concat chunks).
Proof.
  destruct (update_chunks_absorbed chunks [] new_SHA1 absorbed_new) as (this & Hu & Ha).
  cbn [app] in Ha. rewrite Hu. cbn [fst snd].
  destruct Ha as (Hfin & Hbh & Hbl & Hst & Hbuf & _).
  rewrite Hbl. auto 10.
Qed.
